(** * Twofold: the budget summary of a trip

    A shallow embedding of the [summary] computation of the budget screen
    ([BudgetScreen], [useMemo] block) together with the [Expense] record of
    [lib/types.ts].

    Numbers.  The source computes on JavaScript numbers.  The embedding uses
    exact rational arithmetic: an amount is a canonical rational [Qc], so that
    sums are associative and commutative and equality is Leibniz equality.
    Rounding, [NaN] and the infinities are outside the model.

    Objects used as dictionaries ([totals], [perPerson], [paid]) are finite
    maps [gmap string _]; keys are taken to be ordinary strings, not names
    inherited from [Object.prototype].  The [Map] [byCurrency], whose
    iteration order is the insertion order, is an association list. *)

From Stdlib Require Import QArith Qcanon Qcabs Lqa Permutation.
From stdpp Require Import base option list strings gmap fin_maps.
From stdpp Require Import sorting pretty.

(** ** Data model ([lib/types.ts]) *)

Inductive SplitMode : Type := equal | solo.

Global Instance SplitMode_eq_dec : EqDecision SplitMode.
Proof. solve_decision. Defined.

Record Expense : Type := mkExpense {
  id : string;
  trip_id : string;
  title : string;
  amount : Qc;
  currency : string;
  category : option string;
  paid_by : string;
  split : SplitMode;
  added_by : string;
  created_at : string
}.

(** An entry of the [debts] array:
    [{ from: string; to: string; amount: number; currency: string }]. *)
Module Debt.
Record t : Type := mk {
  from : string;
  to : string;
  amount : Qc;
  currency : string
}.
End Debt.

(** The value returned by [summary]: [{ totals, perPerson, debts }]. *)
Record Summary : Type := mkSummary {
  totals : gmap string Qc;
  perPerson : gmap string (gmap string Qc);
  debts : list Debt.t
}.

(** ** JavaScript completions

    A property access on [undefined] raises a [TypeError].  The two places
    of [summary] where that could happen ([perPerson[e.paid_by][e.currency]]
    and [byCurrency.get(e.currency)!.push(e)]) are modelled with an explicit
    abrupt completion. *)

Inductive completion (A : Type) : Type :=
  | Normal (a : A)
  | TypeError.
Arguments Normal {A} a.
Arguments TypeError {A}.

Global Instance completion_ret : MRet completion := λ A a, Normal a.
Global Instance completion_bind : MBind completion := λ A B f m,
  match m with
  | Normal a => f a
  | TypeError => TypeError
  end.

(** [xs.forEach(f)] for a callback that updates a state and may throw. *)
Fixpoint forEach {A S : Type} (f : S → A → completion S) (xs : list A) (s : S)
  : completion S :=
  match xs with
  | [] => Normal s
  | x :: xs' => s' ← f s x; forEach f xs' s'
  end.

(** [o[k]] followed by a property access: throws when [o[k]] is undefined. *)
Definition deref {V : Type} (o : option V) : completion V :=
  match o with
  | Some v => Normal v
  | None => TypeError
  end.

(** ** Numbers *)

(** [x || 0] on a number that may be [undefined]: [undefined] and [0] both
    give [0], any other number gives itself. *)
Definition or0 (o : option Qc) : Qc := default 0%Qc o.

(** [x < y] as computed by the code. *)
Definition Qcltb (x y : Qc) : bool :=
  match (x ?= y)%Qc with
  | Lt => true
  | _ => false
  end.

(** The literal [0.01]. *)
Definition epsilon : Qc := Q2Qc (1 # 100).


(** [xs.length] as a number. *)
Definition length_num {A : Type} (xs : list A) : Qc :=
  Q2Qc (inject_Z (Z.of_nat (length xs))).

(** A string used as a condition: the empty string is falsy. *)
Definition truthy (s : string) : bool :=
  match s with
  | EmptyString => false
  | _ => true
  end.

(** ** The [Map] [byCurrency]: insertion-ordered association list *)

Definition JSMap (V : Type) : Type := list (string * V).

Fixpoint Map_get {V : Type} (m : JSMap V) (k : string) : option V :=
  match m with
  | [] => None
  | (k', v) :: m' => if decide (k' = k) then Some v else Map_get m' k
  end.

Definition Map_has {V : Type} (m : JSMap V) (k : string) : bool :=
  match Map_get m k with
  | Some _ => true
  | None => false
  end.

(** [m.set(k, v)]: an existing key keeps its position, a new key goes last. *)
Fixpoint Map_set {V : Type} (m : JSMap V) (k : string) (v : V) : JSMap V :=
  match m with
  | [] => [(k, v)]
  | (k', v') :: m' =>
      if decide (k' = k) then (k, v) :: m' else (k', v') :: Map_set m' k v
  end.

(** ** The computation *)

(** The constant [PEOPLE] of the budget screen. *)
Definition PEOPLE : list string := ["zeynep"; "bartu"]%string.

Section Summary.

(** The participant list the loops run over; [PEOPLE] in the source. *)
Variable people : list string.

(** Body of the first [expenses.forEach]: totals by currency and spend per
    person. *)
Definition totals_step
    (st : gmap string Qc * gmap string (gmap string Qc)) (e : Expense)
  : completion (gmap string Qc * gmap string (gmap string Qc)) :=
  let '(totals, perPerson) := st in
  let totals :=
    <[currency e := (or0 (totals !! currency e) + amount e)%Qc]> totals in
  let perPerson :=
    match perPerson !! paid_by e with
    | Some _ => perPerson
    | None => <[paid_by e := ∅]> perPerson
    end in
  inner ← deref (perPerson !! paid_by e);
  Normal (totals,
          <[paid_by e :=
              <[currency e := (or0 (inner !! currency e) + amount e)%Qc]> inner]>
            perPerson).

(** Body of the second [expenses.forEach]: group the equal-split expenses
    by currency. *)
Definition byCurrency_step (byCurrency : JSMap (list Expense)) (e : Expense)
  : completion (JSMap (list Expense)) :=
  if decide (split e ≠ equal) then Normal byCurrency
  else
    let byCurrency :=
      if Map_has byCurrency (currency e) then byCurrency
      else Map_set byCurrency (currency e) [] in
    items ← deref (Map_get byCurrency (currency e));
    Normal (Map_set byCurrency (currency e) (items ++ [e])).

(** [paid]: zero for every participant, then the amounts of the group. *)
Definition paid_init : gmap string Qc :=
  foldl (λ paid p, <[p := 0%Qc]> paid) ∅ people.

Definition paid_step (paid : gmap string Qc) (e : Expense) : gmap string Qc :=
  <[paid_by e := (or0 (paid !! paid_by e) + amount e)%Qc]> paid.

Definition paid_of (items : list Expense) : gmap string Qc :=
  foldl paid_step paid_init items.

(** [items.reduce((s, e) => s + e.amount, 0)]. *)
Definition totalShared (items : list Expense) : Qc :=
  foldl (λ s e, (s + amount e)%Qc) 0%Qc items.

(** [totalShared / PEOPLE.length].  With no participant the quotient is
    not a finite number in the source; it is then never read, since it is
    only used inside loops over the participants. *)
Definition perHead (items : list Expense) : Qc :=
  (totalShared items / length_num people)%Qc.

(** [PEOPLE.find((p) => p !== person && (paid[p] || 0) > perHead)]. *)
Definition creditor_of (paid : gmap string Qc) (ph : Qc) (person : string)
  : option string :=
  find (λ p, negb (String.eqb p person) && Qcltb ph (or0 (paid !! p))) people.

(** Body of the inner [PEOPLE.forEach]. *)
Definition person_step (paid : gmap string Qc) (ph : Qc) (cur : string)
    (debts : list Debt.t) (person : string) : list Debt.t :=
  let diff := (or0 (paid !! person) - ph)%Qc in
  if Qcltb diff (- epsilon)%Qc then
    match creditor_of paid ph person with
    | Some creditor =>
        if truthy creditor
        then debts ++ [Debt.mk person creditor (Qcabs diff) cur]
        else debts
    | None => debts
    end
  else debts.

(** Body of [byCurrency.forEach((items, cur) => ...)]. *)
Definition group_step (debts : list Debt.t) (entry : string * list Expense)
  : list Debt.t :=
  let '(cur, items) := entry in
  let paid := paid_of items in
  let ph := perHead items in
  foldl (person_step paid ph cur) debts people.

Definition summary (expenses : list Expense) : completion Summary :=
  '(totals, perPerson) ← forEach totals_step expenses (∅, ∅);
  byCurrency ← forEach byCurrency_step expenses [];
  let debts := foldl group_step [] byCurrency in
  Normal (mkSummary totals perPerson debts).

End Summary.

(** ** Functional form of the loops

    The definitions below restate, as folds and list comprehensions, what
    the loops of [summary] compute; the lemmas of the second part relate
    them to [summary] itself. *)

Definition totals_upd (t : gmap string Qc) (e : Expense) : gmap string Qc :=
  <[currency e := (or0 (t !! currency e) + amount e)%Qc]> t.

Definition perPerson_upd (pp : gmap string (gmap string Qc)) (e : Expense)
  : gmap string (gmap string Qc) :=
  let inner := default ∅ (pp !! paid_by e) in
  <[paid_by e := <[currency e := (or0 (inner !! currency e) + amount e)%Qc]> inner]> pp.

Definition byCurrency_upd (m : JSMap (list Expense)) (e : Expense)
  : JSMap (list Expense) :=
  if decide (split e = equal)
  then Map_set m (currency e) (default [] (Map_get m (currency e)) ++ [e])
  else m.

(** The equal-split expenses of one currency, in input order: the array
    stored under that currency in [byCurrency]. *)
Definition group (c : string) (es : list Expense) : list Expense :=
  filter (λ e, split e = equal ∧ currency e = c) es.

(** The debt, if any, that the inner loop appends for one participant. *)
Definition person_debt (people : list string) (paid : gmap string Qc) (ph : Qc)
    (cur : string) (person : string) : list Debt.t :=
  person_step people paid ph cur [] person.

Definition group_debts (people : list string) (entry : string * list Expense)
  : list Debt.t :=
  people ≫= person_debt people (paid_of people entry.2) (perHead people entry.2)
                        entry.1.

Definition byCurrency_of (es : list Expense) : JSMap (list Expense) :=
  foldl byCurrency_upd [] es.

Definition debts_of (people : list string) (es : list Expense) : list Debt.t :=
  byCurrency_of es ≫= group_debts people.

(** The sum of the amounts of a list of expenses. *)
Definition sum_amounts (es : list Expense) : Qc :=
  foldr (λ e s, (amount e + s)%Qc) 0%Qc es.

(** An entry of a dictionary of sums: absent when nothing was added. *)
Definition sum_entry (es : list Expense) : option Qc :=
  match es with
  | [] => None
  | _ => Some (sum_amounts es)
  end.

(** A dictionary of running sums keyed by [key e], as built by
    [m[key] = (m[key] || 0) + e.amount]. *)
Definition acc_step (key : Expense → string) (m : gmap string Qc) (e : Expense)
  : gmap string Qc :=
  <[key e := (or0 (m !! key e) + amount e)%Qc]> m.

(** The keys of [byCurrency], in iteration order. *)
Definition currencies (es : list Expense) : list string :=
  (byCurrency_of es).*1.

(** The debts of one currency: those its group emits. *)
Definition debts_in (people : list string) (c : string) (es : list Expense)
  : list Debt.t :=
  group_debts people (c, group c es).

(** [paid], [perHead] and [diff] as computed for the group of currency [c]. *)
Definition paid_in (people : list string) (c : string) (es : list Expense)
  : gmap string Qc :=
  paid_of people (group c es).

Definition perHead_in (people : list string) (c : string) (es : list Expense)
  : Qc :=
  perHead people (group c es).

Definition diff_of (people : list string) (c : string) (es : list Expense)
    (p : string) : Qc :=
  (or0 (paid_in people c es !! p) - perHead_in people c es)%Qc.

(** The sum of the amounts of a list of debts. *)
Definition sum_debts (ds : list Debt.t) : Qc :=
  foldr (λ d s, (Debt.amount d + s)%Qc) 0%Qc ds.

(** Money owed in currency [c] by participants, and money due to them. *)
Definition owed_by (people : list string) (c : string) (ds : list Debt.t) : Qc :=
  sum_debts (filter (λ d, Debt.currency d = c ∧ Debt.from d ∈ people) ds).

Definition due_to (people : list string) (c : string) (ds : list Debt.t) : Qc :=
  sum_debts (filter (λ d, Debt.currency d = c ∧ Debt.to d ∈ people) ds).

(** Reading [perPerson[p][c]] when [perPerson[p]] may be undefined. *)
Definition perPerson_read (pp : gmap string (gmap string Qc)) (p c : string)
  : option Qc :=
  pp !! p ≫= (λ inner, inner !! c).

(** ** Sample data *)

(** An expense given by the four fields the computation reads; the other
    fields are left blank. *)
Definition expense (a : Q) (c p : string) (s : SplitMode) : Expense :=
  mkExpense EmptyString EmptyString EmptyString (Q2Qc a) c None p s
            EmptyString EmptyString.

(** Scenario A: 100 TRY paid by zeynep, 0 TRY paid by bartu, both shared. *)
Definition scenarioA : list Expense :=
  [expense 100 "TRY" "zeynep" equal; expense 0 "TRY" "bartu" equal].

(** A shared expense paid by somebody who is not a participant. *)
Definition guest_expenses : list Expense :=
  [expense 100 "TRY" "guest" equal].

(** Scenario B: one personal expense. *)
Definition scenarioB : list Expense :=
  [expense 40 "EUR" "zeynep" solo].

(** Scenario C: both participants paid their share exactly. *)
Definition scenarioC : list Expense :=
  [expense 50 "TRY" "zeynep" equal; expense 50 "TRY" "bartu" equal].

(** Scenario D: shared expenses in two currencies. *)
Definition scenarioD : list Expense :=
  [expense 100 "TRY" "zeynep" equal; expense 60 "USD" "bartu" equal;
   expense 20 "TRY" "bartu" equal].

(** The debts of a completion, as (from, to, amount, currency) with the
    amount as a plain fraction; [None] when the computation threw. *)
Definition debts_view (r : completion Summary)
  : option (list (string * string * Q * string)) :=
  match r with
  | Normal s =>
      Some ((λ d, (Debt.from d, Debt.to d, this (Debt.amount d),
                   Debt.currency d)) <$> debts s)
  | TypeError => None
  end.

(** [totals[c]] of a completion, as a plain fraction. *)
Definition total_view (r : completion Summary) (c : string) : option Q :=
  match r with
  | Normal s => this <$> totals s !! c
  | TypeError => None
  end.

(** ** The expense list of the budget screen

    The screen keeps the fetched expenses in a state variable; [summary] is
    recomputed from it.  Only the state updates are modelled: the requests to
    the backing store are outside the model. *)

(** [handleDelete]: [setExpenses((prev) => prev.filter((e) => e.id !== expenseId))].
    The update runs whether or not the remote deletion succeeded. *)
Definition handleDelete (expenseId : string) (prev : list Expense)
  : list Expense :=
  filter (λ e, id e ≠ expenseId) prev.


(** The sum of a list of numbers. *)
Definition sum_list (xs : list Qc) : Qc := foldr Qcplus 0%Qc xs.

(** Stored expenses, with identifiers. *)
Definition taxi : Expense :=
  mkExpense "1" "t" "taxi" (Q2Qc 30) "USD" None "bartu" equal "bartu" "d".

Definition dinner : Expense :=
  mkExpense "2" "t" "dinner" (Q2Qc 100) "TRY" None "zeynep" equal "zeynep" "d".


(** The distinct elements of a list, in the order of their first occurrence. *)
Definition first_occurrences (l : list string) : list string :=
  foldl (λ seen c, if decide (c ∈ seen) then seen else seen ++ [c]) [] l.

(** The currencies of the equal-split expenses, in input order. *)
Definition shared_currencies (es : list Expense) : list string :=
  currency <$> filter (λ e, split e = equal) es.

(** * The plan screen ([app/trip/[id]/plan.tsx])

    Strings are sequences of characters compared by character code, as the
    default [sort] does with UTF-16 code units. *)

(** ** Items ([lib/types.ts]) *)

Module Item.
Inductive kind : Type := place | ticket.
Inductive progress : Type := planned | visited.

Record t : Type := mk {
  id : string;
  trip_id : string;
  type : kind;
  title : string;
  category : option string;
  date : option string;
  time : option string;
  status : progress;
  file_url : option string;
  added_by : string;
  created_at : string
}.
End Item.

(** [a <= b] for strings, as the default comparison of [sort] decides it. *)
Definition string_le (a b : string) : Prop := String.leb a b = true.

Global Instance string_le_dec a b : Decision (string_le a b).
Proof. unfold string_le. apply _. Defined.

Module Plan.

(** An element of the result of [groupByDate]:
    [{ title: string; data: Item[] }]. *)
Record section : Type := mkSection {
  title : string;
  data : list Item.t
}.

(** [item.date] used as a condition selects the dated items: [null] and the
    empty string are falsy. *)
Definition date_key (item : Item.t) : option string :=
  match Item.date item with
  | Some key => if truthy key then Some key else None
  | None => None
  end.

Section GroupByDate.

(** The title of a date section,
    [`${d.getDate()} ${d.toLocaleString('tr-TR', { month: 'long' })}`] for
    [d = new Date(key)]: it depends on the date parser, the time zone and the
    locale data of the platform, and is taken as given. *)
Variable label : string → string.

(** Body of [items.forEach]. *)
Definition item_step (st : JSMap (list Item.t) * list Item.t) (item : Item.t)
  : completion (JSMap (list Item.t) * list Item.t) :=
  let '(dated, undated) := st in
  match Item.date item with
  | Some key =>
      if truthy key then
        let dated :=
          if Map_has dated key then dated else Map_set dated key [] in
        items ← deref (Map_get dated key);
        Normal (Map_set dated key (items ++ [item]), undated)
      else Normal (dated, undated ++ [item])
  | None => Normal (dated, undated ++ [item])
  end.

(** Body of [sortedKeys.forEach]. *)
Definition section_step (dated : JSMap (list Item.t)) (sections : list section)
    (key : string) : completion (list section) :=
  items ← deref (Map_get dated key);
  Normal (sections ++ [mkSection (label key) items]).

Definition groupByDate (items : list Item.t) : completion (list section) :=
  '(dated, undated) ← forEach item_step items ([], []);
  let sortedKeys := merge_sort string_le dated.*1 in
  sections ← forEach (section_step dated) sortedKeys [];
  Normal (if decide (0 < length undated)
          then sections ++ [mkSection "Tarihsiz" undated]
          else sections).

End GroupByDate.

(** [{ ...i, status: 'visited' }]. *)
Definition set_visited (i : Item.t) : Item.t :=
  Item.mk (Item.id i) (Item.trip_id i) (Item.type i) (Item.title i)
          (Item.category i) (Item.date i) (Item.time i) Item.visited
          (Item.file_url i) (Item.added_by i) (Item.created_at i).

(** The state update of [handleMarkVisited]:
    [prev.map((i) => (i.id === itemId ? { ...i, status: 'visited' } : i))]. *)
Definition handleMarkVisited (itemId : string) (prev : list Item.t)
  : list Item.t :=
  (λ i, if decide (Item.id i = itemId) then set_visited i else i) <$> prev.

(** ** Functional form of [groupByDate] *)

Definition item_upd (st : JSMap (list Item.t) * list Item.t) (item : Item.t)
  : JSMap (list Item.t) * list Item.t :=
  match date_key item with
  | Some key =>
      (Map_set st.1 key (default [] (Map_get st.1 key) ++ [item]), st.2)
  | None => (st.1, st.2 ++ [item])
  end.

(** The items of one date, in input order. *)
Definition on_date (key : string) (items : list Item.t) : list Item.t :=
  filter (λ i, date_key i = Some key) items.

(** The items without a date, in input order. *)
Definition undated (items : list Item.t) : list Item.t :=
  filter (λ i, date_key i = None) items.

(** The dates of the items, in ascending order. *)
Definition sortedKeys (items : list Item.t) : list string :=
  merge_sort string_le (foldl item_upd ([], []) items).1.*1.

(** Sample items: two dated ones given out of order, and one without date. *)
Definition sample : list Item.t :=
  [Item.mk "a" "t" Item.place "Kule" (Some "landmark") (Some "2026-11-10")
     None Item.planned None "zeynep" "c1";
   Item.mk "b" "t" Item.ticket "Vapur" None None None Item.planned None
     "bartu" "c2";
   Item.mk "c" "t" Item.place "Kahve" (Some "cafe") (Some "2026-11-02")
     (Some "09:00") Item.planned None "bartu" "c3";
   Item.mk "d" "t" Item.place "Muze" (Some "museum") (Some "2026-11-10")
     (Some "14:00") Item.planned None "zeynep" "c4"].

(** ** The countdown *)

(** [1000 * 60 * 60 * 24], the milliseconds of a day. *)
Definition msPerDay : Z := 1000 * 60 * 60 * 24.

(** [Math.ceil(x / (1000 * 60 * 60 * 24))] for a difference [x] of two time
    values.  Time values are integers of at most 8.64e15 in absolute value;
    for a clock reading after 1970 the difference is below 2^53, so the
    quotient is off by less than one part in 86400000 and its ceiling is the
    ceiling of the exact quotient. *)
Definition ceil_days (x : Z) : Z := (- ((- x) / msPerDay))%Z.

Section Countdown.

(** [new Date(s).getTime()]: the time value of the date that [s] denotes, in
    milliseconds, or [None] for an invalid date (whose time value is [NaN]).
    Date parsing belongs to the platform and is taken as given. *)
Variable getTime : string → option Z.

(** [new Date().getTime()], the reading of the clock. *)
Variable now : Z.

(** [getCountdown(startDate)].  With an invalid date [diff] is [NaN]: both
    comparisons are false and the template prints "NaN". *)
Definition getCountdown (startDate : option string) : option string :=
  match startDate with
  | None => None
  | Some s =>
      if negb (truthy s) then None
      else
        match getTime s with
        | None => Some ("NaN" +:+ " gün kaldı")
        | Some start =>
            let diff := ceil_days (start - now) in
            if (diff <? 0)%Z then None
            else if (diff =? 0)%Z then Some "Bugün! 🎉"
            else Some (pretty diff +:+ " gün kaldı")
        end
  end.

End Countdown.

End Plan.

(** * The moments screen (second screen of [app/trip/[id]/plan.tsx]) *)

Module Moment.
Record t : Type := mk {
  id : string;
  trip_id : string;
  mood : string;
  note : string;
  added_by : string;
  created_at : string
}.
End Moment.

Module Moments.

(** An element of the result of [groupByDate]:
    [{ title: string; data: Moment[] }]. *)
Record section : Type := mkSection {
  title : string;
  data : list Moment.t
}.

Section GroupByDate.

(** The key of a moment,
    [`${d.getFullYear()}-${...padStart(2, '0')}-${...padStart(2, '0')}`] for
    [d = new Date(m.created_at)]: the local calendar day of the time stamp.
    It depends on the date parser and the time zone of the platform and is
    taken as given, as a function of [created_at]. *)
Variable dayKey : string → string.

(** The title of a section, computed from its key; see the plan screen. *)
Variable label : string → string.

(** [entries.sort(([a], [b]) => b.localeCompare(a))]: the order is that of
    the platform's collation and is taken as given. *)
Variable sortEntries :
  list (string * list Moment.t) → list (string * list Moment.t).

(** Body of [moments.forEach]. *)
Definition moment_step (grouped : JSMap (list Moment.t)) (m : Moment.t)
  : completion (JSMap (list Moment.t)) :=
  let key := dayKey (Moment.created_at m) in
  let grouped :=
    if Map_has grouped key then grouped else Map_set grouped key [] in
  items ← deref (Map_get grouped key);
  Normal (Map_set grouped key (items ++ [m])).

Definition groupByDate (moments : list Moment.t) : completion (list section) :=
  grouped ← forEach moment_step moments [];
  Normal ((λ entry, mkSection (label entry.1) entry.2) <$> sortEntries grouped).

(** Functional form of the loop. *)
Definition moment_upd (grouped : JSMap (list Moment.t)) (m : Moment.t)
  : JSMap (list Moment.t) :=
  let key := dayKey (Moment.created_at m) in
  Map_set grouped key (default [] (Map_get grouped key) ++ [m]).

(** The moments of one day, in input order. *)
Definition on_day (key : string) (moments : list Moment.t) : list Moment.t :=
  filter (λ m, dayKey (Moment.created_at m) = key) moments.

End GroupByDate.

(** Sample moments, with a day key that reads the day off an ISO time stamp
    (as in the UTC time zone). *)
Definition sample : list Moment.t :=
  [Moment.mk "3" "t" ":)" "ferry" "zeynep" "2026-11-02T18:00:00Z";
   Moment.mk "2" "t" ":D" "breakfast" "bartu" "2026-11-02T08:30:00Z";
   Moment.mk "1" "t" ":)" "arrival" "zeynep" "2026-11-01T21:10:00Z"].

Definition isoDay (created_at : string) : string :=
  String.substring 0 10 created_at.

End Moments.

(** * Properties *)

(** ** The operations of [Map] *)

Section MapFacts.
Context {V : Type}.
Implicit Types (m : JSMap V) (k : string) (v : V).

Lemma Map_get_set m k v k' :
  Map_get (Map_set m k v) k' = if decide (k = k') then Some v else Map_get m k'.
Proof.
  induction m as [|[k0 v0] m IH]; csimpl.
  - by destruct (decide (k = k')).
  - destruct (decide (k0 = k)) as [->|]; csimpl.
    + by destruct (decide (k = k')).
    + rewrite IH. destruct (decide (k0 = k')) as [<-|]; [| done].
      by destruct (decide (k = k0)).
Qed.

Lemma Map_set_set m k v v' : Map_set (Map_set m k v) k v' = Map_set m k v'.
Proof.
  induction m as [|[k0 v0] m IH]; csimpl.
  - by destruct (decide (k = k)).
  - destruct (decide (k0 = k)) as [->|Hne]; csimpl.
    + by destruct (decide (k = k)).
    + destruct (decide (k0 = k)); [contradiction | by rewrite IH].
Qed.

Lemma Map_get_None m k : Map_get m k = None ↔ k ∉ m.*1.
Proof.
  induction m as [|[k0 v0] m IH]; csimpl.
  - split; [intros _; apply not_elem_of_nil | done].
  - rewrite not_elem_of_cons. destruct (decide (k0 = k)) as [->|Hne].
    + split; [done | intros [? _]; done].
    + rewrite IH. split; [intros ?; split; [congruence | done] | by intros [_ ?]].
Qed.

Lemma Map_set_keys m k v :
  (Map_set m k v).*1 = if decide (k ∈ m.*1) then m.*1 else m.*1 ++ [k].
Proof.
  induction m as [|[k0 v0] m IH]; csimpl.
  - done.
  - destruct (decide (k0 = k)) as [->|Hne]; csimpl.
    + rewrite decide_True; [done | left].
    + rewrite IH. destruct (decide (k ∈ m.*1)) as [Hin|Hin].
      * rewrite decide_True; [done | by right].
      * rewrite decide_False; [done |].
        rewrite not_elem_of_cons. split; [congruence | done].
Qed.

Lemma Map_get_entry m k v : NoDup m.*1 → (k, v) ∈ m → Map_get m k = Some v.
Proof.
  induction m as [|[k0 v0] m IH]; csimpl; intros Hnd Hin.
  - by apply elem_of_nil in Hin.
  - apply NoDup_cons in Hnd as [Hk0 Hnd].
    apply elem_of_cons in Hin as [Heq | Hin].
    + inversion Heq; subst. by destruct (decide (k0 = k0)).
    + destruct (decide (k0 = k)) as [->|]; [| by apply IH].
      exfalso. apply Hk0. apply list_elem_of_fmap. by exists (k, v).
Qed.

Lemma Map_set_NoDup m k v : NoDup m.*1 → NoDup (Map_set m k v).*1.
Proof.
  intros Hnd. rewrite Map_set_keys. destruct (decide (k ∈ m.*1)); [done |].
  apply NoDup_app. split; [done |]. split; [| apply NoDup_singleton].
  intros x Hx Hx'. apply list_elem_of_singleton in Hx'. by subst.
Qed.
End MapFacts.

(** ** Normal completion *)

Lemma totals_step_normal t pp e :
  totals_step (t, pp) e = Normal (totals_upd t e, perPerson_upd pp e).
Proof.
  unfold totals_step, totals_upd, perPerson_upd.
  destruct (pp !! paid_by e) as [inner|] eqn:Hpp; csimpl.
  - by rewrite Hpp.
  - rewrite lookup_insert_eq. csimpl. by rewrite insert_insert_eq.
Qed.

Lemma forEach_totals es t pp :
  forEach totals_step es (t, pp)
  = Normal (foldl totals_upd t es, foldl perPerson_upd pp es).
Proof.
  revert t pp. induction es as [|e es IH]; intros t pp; [done |].
  cbn [forEach foldl]. rewrite totals_step_normal. apply IH.
Qed.

Lemma byCurrency_step_normal m e :
  byCurrency_step m e = Normal (byCurrency_upd m e).
Proof.
  unfold byCurrency_step, byCurrency_upd, Map_has.
  destruct (decide (split e = equal)) as [Heq|Hne].
  - rewrite decide_False by (intros H; by apply H).
    destruct (Map_get m (currency e)) as [items|] eqn:Hget; csimpl.
    + by rewrite Hget.
    + rewrite Map_get_set, decide_True by done. csimpl.
      by rewrite Map_set_set.
  - by rewrite decide_True.
Qed.

Lemma forEach_byCurrency es m :
  forEach byCurrency_step es m = Normal (foldl byCurrency_upd m es).
Proof.
  revert m. induction es as [|e es IH]; intros m; [done |].
  cbn [forEach foldl]. rewrite byCurrency_step_normal. apply IH.
Qed.

Lemma person_step_app people paid ph cur ds person :
  person_step people paid ph cur ds person
  = ds ++ person_debt people paid ph cur person.
Proof.
  unfold person_debt, person_step.
  destruct (Qcltb _ _); [| by rewrite app_nil_r].
  destruct (creditor_of _ _ _ _) as [c|]; [| by rewrite app_nil_r].
  destruct (truthy c); [done | by rewrite app_nil_r].
Qed.

Lemma foldl_person_step people paid ph cur ps ds :
  foldl (person_step people paid ph cur) ds ps
  = ds ++ (ps ≫= person_debt people paid ph cur).
Proof.
  revert ds. induction ps as [|p ps IH]; intros ds; csimpl.
  - by rewrite app_nil_r.
  - rewrite IH, person_step_app. by rewrite <- app_assoc.
Qed.

Lemma group_step_app people ds entry :
  group_step people ds entry = ds ++ group_debts people entry.
Proof. destruct entry as [cur items]. apply foldl_person_step. Qed.

Lemma foldl_group_step people m ds :
  foldl (group_step people) ds m = ds ++ (m ≫= group_debts people).
Proof.
  revert ds. induction m as [|entry m IH]; intros ds; csimpl.
  - by rewrite app_nil_r.
  - rewrite IH, group_step_app. by rewrite <- app_assoc.
Qed.

(** [summary] always completes normally, with the functional form of its
    three results. *)
Lemma summary_normal people es :
  summary people es
  = Normal (mkSummary (foldl totals_upd ∅ es) (foldl perPerson_upd ∅ es)
                      (debts_of people es)).
Proof.
  unfold summary. rewrite forEach_totals. csimpl.
  rewrite forEach_byCurrency. csimpl.
  by rewrite foldl_group_step.
Qed.

Lemma sum_amounts_app es1 es2 :
  sum_amounts (es1 ++ es2) = (sum_amounts es1 + sum_amounts es2)%Qc.
Proof.
  induction es1 as [|e es1 IH]; csimpl.
  - by rewrite Qcplus_0_l.
  - rewrite IH. ring.
Qed.

Lemma sum_amounts_Permutation es1 es2 :
  es1 ≡ₚ es2 → sum_amounts es1 = sum_amounts es2.
Proof.
  induction 1 as [|e es1 es2 _ IH|e1 e2 es|es1 es2 es3 _ IH1 _ IH2]; csimpl.
  - done.
  - by rewrite IH.
  - ring.
  - by rewrite IH1.
Qed.

Lemma acc_lookup key es m k :
  foldl (acc_step key) m es !! k
  = match filter (λ e, key e = k) es with
    | [] => m !! k
    | l => Some (or0 (m !! k) + sum_amounts l)%Qc
    end.
Proof.
  revert m. induction es as [|e es IH]; intros m; [done |].
  cbn [foldl]. rewrite IH. unfold acc_step.
  destruct (decide (key e = k)) as [Hk|Hk].
  - rewrite filter_cons_True by done. rewrite Hk, lookup_insert_eq.
    destruct (filter _ es) as [|e' l]; cbn [or0 default]; f_equal; csimpl; ring.
  - rewrite filter_cons_False by done. by rewrite lookup_insert_ne.
Qed.

Lemma totals_lookup es c :
  foldl totals_upd ∅ es !! c = sum_entry (filter (λ e, currency e = c) es).
Proof.
  change totals_upd with (acc_step currency). rewrite acc_lookup.
  rewrite lookup_empty. unfold sum_entry.
  destruct (filter _ es); [done |]. f_equal. cbn [or0 default]. ring.
Qed.

Lemma perPerson_lookup es pp p :
  foldl perPerson_upd pp es !! p
  = match filter (λ e, paid_by e = p) es with
    | [] => pp !! p
    | l => Some (foldl totals_upd (default ∅ (pp !! p)) l)
    end.
Proof.
  revert pp. induction es as [|e es IH]; intros pp; [done |].
  cbn [foldl]. rewrite IH. unfold perPerson_upd.
  destruct (decide (paid_by e = p)) as [Hk|Hk].
  - rewrite filter_cons_True by done. rewrite Hk, lookup_insert_eq.
    by destruct (filter _ es).
  - rewrite filter_cons_False by done. by rewrite lookup_insert_ne.
Qed.

(** ** The groups of [byCurrency] *)

Lemma Map_entries {V : Type} (m : JSMap V) (f : string → V) :
  NoDup m.*1 →
  (∀ k, k ∈ m.*1 → Map_get m k = Some (f k)) →
  m = (λ k, (k, f k)) <$> m.*1.
Proof.
  induction m as [|[k0 v0] m IH]; csimpl; intros Hnd Hget; [done |].
  apply NoDup_cons in Hnd as [Hk0 Hnd].
  f_equal.
  - specialize (Hget k0 ltac:(left)). rewrite decide_True in Hget by done.
    congruence.
  - apply IH; [done |]. intros k Hk.
    specialize (Hget k ltac:(by right)).
    rewrite decide_False in Hget; [done |]. by intros ->.
Qed.

Lemma group_app c es1 es2 : group c (es1 ++ es2) = group c es1 ++ group c es2.
Proof. apply filter_app. Qed.

Lemma group_one c e :
  group c [e] = if decide (split e = equal ∧ currency e = c) then [e] else [].
Proof.
  unfold group. destruct (decide (split e = equal ∧ currency e = c)).
  - by rewrite filter_cons_True.
  - by rewrite filter_cons_False.
Qed.

Lemma byCurrency_of_snoc es e :
  byCurrency_of (es ++ [e]) = byCurrency_upd (byCurrency_of es) e.
Proof. unfold byCurrency_of. by rewrite foldl_app. Qed.

Lemma byCurrency_inv es :
  NoDup (currencies es) ∧
  ∀ c, Map_get (byCurrency_of es) c
       = match group c es with [] => None | l => Some l end.
Proof.
  unfold currencies.
  induction es as [|e es [IHnd IHget]] using rev_ind; [split; [constructor | done] |].
  rewrite byCurrency_of_snoc. unfold byCurrency_upd.
  destruct (decide (split e = equal)) as [Heq|Hne].
  - split; [by apply Map_set_NoDup |]. intros c.
    rewrite Map_get_set, group_app, group_one.
    destruct (decide (currency e = c)) as [Hc|Hc].
    + rewrite decide_True by done. rewrite Hc, IHget.
      by destruct (group c es).
    + rewrite decide_False by (by intros [_ ?]).
      rewrite app_nil_r. apply IHget.
  - split; [done |]. intros c. rewrite group_app, group_one.
    rewrite decide_False by (by intros [? _]).
    rewrite app_nil_r. apply IHget.
Qed.

Lemma currencies_NoDup es : NoDup (currencies es).
Proof. apply byCurrency_inv. Qed.

Lemma elem_of_currencies c es : c ∈ currencies es ↔ group c es ≠ [].
Proof.
  destruct (byCurrency_inv es) as [_ Hget]. specialize (Hget c).
  unfold currencies. split.
  - intros Hin Hnil. rewrite Hnil in Hget. by apply Map_get_None in Hget.
  - intros Hne. destruct (decide (c ∈ (byCurrency_of es).*1)) as [|Hn]; [done |].
    apply Map_get_None in Hn. rewrite Hn in Hget.
    by destruct (group c es).
Qed.

Lemma byCurrency_entries es :
  byCurrency_of es = (λ c, (c, group c es)) <$> currencies es.
Proof.
  apply Map_entries; [apply currencies_NoDup |].
  intros c Hc. apply elem_of_currencies in Hc.
  destruct (byCurrency_inv es) as [_ Hget]. rewrite Hget.
  by destruct (group c es).
Qed.

Lemma debts_of_currencies people es :
  debts_of people es = currencies es ≫= (λ c, debts_in people c es).
Proof.
  unfold debts_of. rewrite byCurrency_entries at 1.
  induction (currencies es) as [|c cs IH]; csimpl; [done |].
  by rewrite IH.
Qed.

(** ** Rational arithmetic *)

Section QcFacts.
Implicit Types x y : Qc.

Lemma Qc_plus_Q x y : (this (x + y)%Qc == this x + this y)%Q.
Proof. apply Qred_correct. Qed.

Lemma Qc_opp_Q x : (this (- x)%Qc == - this x)%Q.
Proof. apply Qred_correct. Qed.

Lemma Qc_minus_Q x y : (this (x - y)%Qc == this x - this y)%Q.
Proof. unfold Qcminus. rewrite Qc_plus_Q, Qc_opp_Q. reflexivity. Qed.

Lemma Qc_mult_Q x y : (this (x * y)%Qc == this x * this y)%Q.
Proof. apply Qred_correct. Qed.

Lemma Q2Qc_Q (q : Q) : (this (Q2Qc q) == q)%Q.
Proof. apply Qred_correct. Qed.
End QcFacts.

(** Moves an order statement on [Qc] to [Q], where [lra] applies. *)
Ltac qc_to_q :=
  unfold Qclt, Qcle;
  repeat first [ rewrite Qc_plus_Q | rewrite Qc_minus_Q | rewrite Qc_opp_Q
               | rewrite Qc_mult_Q | rewrite Q2Qc_Q ].

Lemma Qcltb_lt x y : Qcltb x y = true ↔ (x < y)%Qc.
Proof.
  unfold Qcltb. rewrite Qclt_alt.
  destruct (x ?= y)%Qc; split; congruence.
Qed.

Lemma Qcltb_ge x y : Qcltb x y = false ↔ (y <= x)%Qc.
Proof.
  split.
  - intros H. apply Qcnot_lt_le. intros Hlt. apply Qcltb_lt in Hlt. congruence.
  - intros H. destruct (Qcltb x y) eqn:E; [| done].
    apply Qcltb_lt in E. by apply Qcle_not_lt in H.
Qed.

Lemma Qcabs_debtor x : (x < - epsilon)%Qc → (0 < Qcabs x)%Qc.
Proof.
  intros H. rewrite Qcabs_neg; revert H; unfold epsilon; qc_to_q; lra.
Qed.

Lemma or0_sum_entry es : or0 (sum_entry es) = sum_amounts es.
Proof. by destruct es. Qed.

(** ** What a group computes *)

Section Group.
Variable people : list string.



Lemma totalShared_sum items : totalShared items = sum_amounts items.
Proof.
  unfold totalShared.
  assert (∀ s, foldl (λ s e, (s + amount e)%Qc) s items
               = (s + sum_amounts items)%Qc) as Hgen.
  { induction items as [|e items IH]; intros s; csimpl.
    - ring.
    - rewrite IH. ring. }
  rewrite Hgen. ring.
Qed.

Lemma paid_of_Permutation items1 items2 :
  items1 ≡ₚ items2 → paid_of people items1 = paid_of people items2.
Proof.
  intros Hperm. apply map_eq. intros p. unfold paid_of.
  change paid_step with (acc_step paid_by). rewrite !acc_lookup.
  assert (filter (λ e, paid_by e = p) items1
          ≡ₚ filter (λ e, paid_by e = p) items2) as Hf by by rewrite Hperm.
  destruct (filter _ items1) as [|e1 l1], (filter _ items2) as [|e2 l2].
  - done.
  - by apply Permutation_nil_cons in Hf.
  - symmetry in Hf. by apply Permutation_nil_cons in Hf.
  - by rewrite (sum_amounts_Permutation _ _ Hf).
Qed.

Lemma perHead_Permutation items1 items2 :
  items1 ≡ₚ items2 → perHead people items1 = perHead people items2.
Proof.
  intros Hperm. unfold perHead. rewrite !totalShared_sum.
  by rewrite (sum_amounts_Permutation _ _ Hperm).
Qed.
End Group.

(** ** The computation at work

    [summary] itself, evaluated on the scenarios. *)

Example run_scenarioA :
  debts_view (summary PEOPLE scenarioA)
  = Some [("bartu", "zeynep", 50%Q, "TRY")]%string
  ∧ total_view (summary PEOPLE scenarioA) "TRY" = Some 100%Q.
Proof. split; vm_compute; reflexivity. Qed.

Example run_scenarioB :
  debts_view (summary PEOPLE scenarioB) = Some []
  ∧ total_view (summary PEOPLE scenarioB) "EUR" = Some 40%Q.
Proof. split; vm_compute; reflexivity. Qed.

Example run_scenarioC :
  debts_view (summary PEOPLE scenarioC) = Some []
  ∧ total_view (summary PEOPLE scenarioC) "TRY" = Some 100%Q.
Proof. split; vm_compute; reflexivity. Qed.

(** Groups are visited in the order in which their currency first occurs:
    TRY (120 shared, bartu paid 20 and owes 40), then USD (60 shared, zeynep
    owes 30). *)
Example run_scenarioD :
  debts_view (summary PEOPLE scenarioD)
  = Some [("bartu", "zeynep", 40%Q, "TRY"); ("zeynep", "bartu", 30%Q, "USD")]%string.
Proof. vm_compute. reflexivity. Qed.

Example run_guest_expenses :
  debts_view (summary PEOPLE guest_expenses) = Some [].
Proof. vm_compute. reflexivity. Qed.

Example run_no_participants :
  debts_view (summary [] scenarioA) = Some []
  ∧ total_view (summary [] scenarioA) "TRY" = Some 100%Q.
Proof. split; vm_compute; reflexivity. Qed.

(** ** The emitted debts *)

Lemma filter_all {A : Type} (P : A → Prop) `{∀ x, Decision (P x)} (l : list A) :
  Forall P l → filter P l = l.
Proof.
  induction 1 as [|x l Hx _ IH]; [done |].
  rewrite filter_cons_True by done. by rewrite IH.
Qed.

Lemma filter_none {A : Type} (P : A → Prop) `{∀ x, Decision (P x)} (l : list A) :
  Forall (λ x, ¬ P x) l → filter P l = [].
Proof.
  induction 1 as [|x l Hx _ IH]; [done |].
  by rewrite filter_cons_False.
Qed.

Lemma creditor_of_Some people paid ph p c :
  creditor_of people paid ph p = Some c →
  c ∈ people ∧ c ≠ p ∧ (ph < or0 (paid !! c))%Qc.
Proof.
  unfold creditor_of. intros Hfind. apply find_some in Hfind as [Hin Hc].
  apply andb_true_iff in Hc as [Hne Hlt].
  apply negb_true_iff, String.eqb_neq in Hne. apply Qcltb_lt in Hlt.
  split; [by apply list_elem_of_In | done].
Qed.

Lemma elem_of_person_debt people paid ph cur p d :
  d ∈ person_debt people paid ph cur p ↔
  (or0 (paid !! p) - ph < - epsilon)%Qc ∧
  ∃ c, creditor_of people paid ph p = Some c ∧ truthy c = true ∧
       d = Debt.mk p c (Qcabs (or0 (paid !! p) - ph)) cur.
Proof.
  unfold person_debt, person_step.
  destruct (Qcltb _ _) eqn:Hlt.
  - apply Qcltb_lt in Hlt.
    destruct (creditor_of _ _ _ _) as [c|].
    + destruct (truthy c) eqn:Ht; csimpl.
      * rewrite list_elem_of_singleton. split.
        -- intros ->. split; [done |]. by exists c.
        -- intros [_ (c' & Hc' & _ & ->)]. congruence.
      * split; [intros Hd; by apply elem_of_nil in Hd |].
        intros [_ (c' & Hc' & Ht' & _)]. congruence.
    + split; [intros Hd; by apply elem_of_nil in Hd |].
      intros [_ (c' & Hc' & _)]. congruence.
  - apply Qcltb_ge in Hlt. split; [intros Hd; by apply elem_of_nil in Hd |].
    intros [Hlt' _]. by apply Qcle_not_lt in Hlt.
Qed.

Lemma elem_of_debts_in people c es d :
  d ∈ debts_in people c es ↔
  ∃ p, p ∈ people ∧
       d ∈ person_debt people (paid_in people c es) (perHead_in people c es) c p.
Proof.
  unfold debts_in, group_debts. csimpl. rewrite list_elem_of_bind.
  split; intros (p & H1 & H2); exists p; done.
Qed.

Lemma elem_of_debts_of people es d :
  d ∈ debts_of people es ↔ ∃ c, c ∈ currencies es ∧ d ∈ debts_in people c es.
Proof.
  rewrite debts_of_currencies, list_elem_of_bind.
  split; intros (c & H1 & H2); exists c; done.
Qed.

(** Everything the code establishes before it pushes a debt. *)
Lemma debts_in_facts people c es d :
  d ∈ debts_in people c es →
  Debt.currency d = c ∧
  Debt.from d ∈ people ∧ Debt.to d ∈ people ∧ Debt.from d ≠ Debt.to d ∧
  (diff_of people c es (Debt.from d) < - epsilon)%Qc ∧
  (perHead_in people c es < or0 (paid_in people c es !! Debt.to d))%Qc ∧
  Debt.amount d = Qcabs (diff_of people c es (Debt.from d)).
Proof.
  intros (p & Hp & Hd)%elem_of_debts_in.
  apply elem_of_person_debt in Hd as (Hlt & cr & Hcr & _ & ->).
  apply creditor_of_Some in Hcr as (Hin & Hne & Hgt). csimpl.
  repeat split; done.
Qed.

Lemma filter_bind_currency (f : string → list Debt.t) (cs : list string) c :
  NoDup cs →
  (∀ k d, d ∈ f k → Debt.currency d = k) →
  filter (λ d, Debt.currency d = c) (cs ≫= f)
  = if decide (c ∈ cs) then f c else [].
Proof.
  intros Hnd Hcur. induction Hnd as [|k cs Hk Hnd IH]; csimpl; [done |].
  rewrite filter_app, IH. destruct (decide (k = c)) as [->|Hne].
  - rewrite (decide_False (P := c ∈ cs)) by done.
    rewrite (decide_True (P := c ∈ c :: cs)) by left.
    rewrite app_nil_r. apply filter_all, Forall_forall. intros d Hd. by apply Hcur.
  - rewrite filter_none.
    + destruct (decide (c ∈ cs)) as [Hin|Hin].
      * rewrite decide_True; [done | by right].
      * rewrite decide_False; [done |].
        rewrite not_elem_of_cons. split; [congruence | done].
    + apply Forall_forall. intros d Hd Hc. apply Hcur in Hd. congruence.
Qed.

(** The debts of one currency are those of its group, if it has one. *)
Lemma debts_of_filter people es c :
  filter (λ d, Debt.currency d = c) (debts_of people es)
  = if decide (c ∈ currencies es) then debts_in people c es else [].
Proof.
  rewrite debts_of_currencies.
  apply (filter_bind_currency (λ c, debts_in people c es));
    [apply currencies_NoDup |].
  intros k d Hd. by apply debts_in_facts in Hd as [? _].
Qed.

(** * The claims *)

(** ** Totals *)

Lemma sum_entry_Permutation es1 es2 :
  es1 ≡ₚ es2 → sum_entry es1 = sum_entry es2.
Proof.
  intros Hperm. destruct es1 as [|e1 l1], es2 as [|e2 l2].
  - done.
  - by apply Permutation_nil_cons in Hperm.
  - symmetry in Hperm. by apply Permutation_nil_cons in Hperm.
  - unfold sum_entry. by rewrite (sum_amounts_Permutation _ _ Hperm).
Qed.

Lemma filter_and {A : Type} (P Q : A → Prop)
    `{!∀ x, Decision (P x), !∀ x, Decision (Q x)} (l : list A) :
  filter (λ x, P x ∧ Q x) l = filter Q (filter P l).
Proof.
  rewrite list_filter_filter. apply list_filter_iff. intros x. tauto.
Qed.

Lemma perPerson_read_lookup es p c :
  perPerson_read (foldl perPerson_upd ∅ es) p c
  = sum_entry (filter (λ e, paid_by e = p ∧ currency e = c) es).
Proof.
  unfold perPerson_read. rewrite perPerson_lookup, lookup_empty.
  rewrite (filter_and (λ e, paid_by e = p) (λ e, currency e = c)).
  destruct (filter (λ e, paid_by e = p) es) as [|e l] eqn:Hf; [done |].
  apply (totals_lookup (e :: l)).
Qed.

Lemma perPerson_is_Some es p :
  is_Some (foldl perPerson_upd ∅ es !! p) ↔ ∃ e, e ∈ es ∧ paid_by e = p.
Proof.
  rewrite perPerson_lookup, lookup_empty.
  destruct (filter (λ e, paid_by e = p) es) as [|e l] eqn:Hf.
  - split; [by intros [? ?] |]. intros (e & He & Hp).
    assert (e ∈ filter (λ e, paid_by e = p) es) as Hin
      by (apply list_elem_of_filter; done).
    rewrite Hf in Hin. by apply elem_of_nil in Hin.
  - split; [| by eexists]. intros _.
    assert (e ∈ filter (λ e, paid_by e = p) es) as Hin by (rewrite Hf; left).
    apply list_elem_of_filter in Hin as [? ?]. by exists e.
Qed.

(** C3.  [totals] maps each currency to the sum of the amounts of all
    expenses in that currency (and has no entry for a currency without
    expenses); [perPerson] has an entry exactly for the payers that occur, and
    maps a payer and a currency to the sum of the amounts that payer paid in
    that currency.  No sum looks at the split mode. *)
Theorem computeTotals_sums people es :
  ∃ r, summary people es = Normal r ∧
       (∀ c, totals r !! c = sum_entry (filter (λ e, currency e = c) es)) ∧
       (∀ p, is_Some (perPerson r !! p) ↔ ∃ e, e ∈ es ∧ paid_by e = p) ∧
       (∀ p c, perPerson_read (perPerson r) p c
               = sum_entry (filter (λ e, paid_by e = p ∧ currency e = c) es)).
Proof.
  eexists. split; [apply summary_normal |]. cbn [totals perPerson].
  split; [apply totals_lookup |].
  split; [apply perPerson_is_Some | apply perPerson_read_lookup].
Qed.

(** ** Degenerate inputs *)

(** C9.  For the empty expense list the computation completes normally and
    returns empty aggregates: [totals] is empty, [perPerson] is empty and
    [debts] is the empty sequence, whatever the participant list. *)
Theorem summary_empty people :
  summary people [] = Normal (mkSummary ∅ ∅ []).
Proof. reflexivity. Qed.

(** C2, as the code behaves.  The computation has no rejection path.  With
    an empty participant list it completes normally: [totals] and [perPerson]
    are those computed with the participants of the application, and [debts]
    is the empty sequence.  The participant list of the application itself is
    the two-element constant [PEOPLE]. *)
Theorem summary_no_participants es :
  length PEOPLE = 2 ∧
  ∃ r r', summary [] es = Normal r ∧ summary PEOPLE es = Normal r' ∧
          totals r = totals r' ∧ perPerson r = perPerson r' ∧ debts r = [].
Proof.
  split; [done |]. do 2 eexists.
  split; [apply summary_normal |]. split; [apply summary_normal |].
  cbn [totals perPerson debts]. repeat split.
  rewrite debts_of_currencies.
  induction (currencies es) as [|c cs IH]; [done |].
  rewrite bind_cons, IH. done.
Qed.

(** C2, as stated, fails: with no participant and one shared expense of 100
    the computation is not rejected; it returns a result whose [debts] are
    empty, where the two participants of the application get a debt of 50. *)
Lemma empty_participants_not_rejected :
  (∃ r, summary [] [expense 100 "TRY" "zeynep" equal] = Normal r ∧
        totals r !! "TRY"%string = Some (Q2Qc 100) ∧ debts r = []) ∧
  (∃ r', summary PEOPLE [expense 100 "TRY" "zeynep" equal] = Normal r' ∧
         debts r' = [Debt.mk "bartu" "zeynep" (Q2Qc 50) "TRY"]).
Proof.
  split; eexists; (split; [apply summary_normal |]); cbn [totals debts].
  - split; [| done]. rewrite totals_lookup. vm_compute filter. by f_equal.
  - vm_compute. do 2 f_equal. by apply Qc_is_canon.
Qed.

(** ** Scenario A *)

(** C7.  With participants [zeynep, bartu] and exactly two equal-split
    expenses, 100 TRY paid by zeynep and 0 TRY paid by bartu, the computation
    returns [totals["TRY"] = 100] and the single debt
    [{from: bartu, to: zeynep, amount: 50, currency: "TRY"}]. *)
Theorem scenario_A e1 e2 :
  amount e1 = Q2Qc 100 → currency e1 = "TRY"%string →
  paid_by e1 = "zeynep"%string → split e1 = equal →
  amount e2 = Q2Qc 0 → currency e2 = "TRY"%string →
  paid_by e2 = "bartu"%string → split e2 = equal →
  ∃ r, summary PEOPLE [e1; e2] = Normal r ∧
       totals r !! "TRY"%string = Some (Q2Qc 100) ∧
       debts r = [Debt.mk "bartu" "zeynep" (Q2Qc 50) "TRY"].
Proof.
  destruct e1, e2; csimpl; intros; subst.
  eexists. split; [apply summary_normal |]. cbn [totals debts]. split.
  - rewrite totals_lookup. vm_compute filter. by f_equal.
  - vm_compute. do 2 f_equal. by apply Qc_is_canon.
Qed.

Lemma scenario_A_witness :
  amount (expense 100 "TRY" "zeynep" equal) = Q2Qc 100 ∧
  currency (expense 100 "TRY" "zeynep" equal) = "TRY"%string ∧
  paid_by (expense 100 "TRY" "zeynep" equal) = "zeynep"%string ∧
  split (expense 100 "TRY" "zeynep" equal) = equal ∧
  amount (expense 0 "TRY" "bartu" equal) = Q2Qc 0 ∧
  currency (expense 0 "TRY" "bartu" equal) = "TRY"%string ∧
  paid_by (expense 0 "TRY" "bartu" equal) = "bartu"%string ∧
  split (expense 0 "TRY" "bartu" equal) = equal ∧
  ∃ r, summary PEOPLE scenarioA = Normal r ∧
       totals r !! "TRY"%string = Some (Q2Qc 100) ∧
       debts r = [Debt.mk "bartu" "zeynep" (Q2Qc 50) "TRY"].
Proof.
  do 8 (split; [reflexivity |]).
  apply (scenario_A (expense 100 "TRY" "zeynep" equal)
                    (expense 0 "TRY" "bartu" equal)); reflexivity.
Defined.

(** ** Positive amounts, and who is a debtor *)

(** C8.  Every emitted debt has a strictly positive amount, and a participant
    whose paid total minus [perHead] is at least [-0.01] in a currency group
    (an exact payer or an over-payer in particular) is the debtor of no debt of
    that currency. *)
Theorem debts_positive people es :
  ∃ r, summary people es = Normal r ∧
       (∀ d, d ∈ debts r → (0 < Debt.amount d)%Qc) ∧
       (∀ p c, (- epsilon <= diff_of people c es p)%Qc →
               ∀ d, d ∈ debts r → ¬ (Debt.from d = p ∧ Debt.currency d = c)).
Proof.
  eexists. split; [apply summary_normal |]. cbn [debts]. split.
  - intros d (c & _ & Hd)%elem_of_debts_of.
    apply debts_in_facts in Hd as (_ & _ & _ & _ & Hlt & _ & ->).
    by apply Qcabs_debtor.
  - intros p c Hge d (c' & _ & Hd)%elem_of_debts_of [Hfrom Hcur].
    apply debts_in_facts in Hd as (Hc' & _ & _ & _ & Hlt & _).
    rewrite Hfrom in Hlt. rewrite <- Hc', Hcur in Hlt.
    by apply Qcle_not_lt in Hge.
Qed.

(** Scenario C: zeynep paid her share exactly, and owes nothing. *)
Lemma debts_positive_witness :
  (- epsilon <= diff_of PEOPLE "TRY" scenarioC "zeynep")%Qc ∧
  ∃ r, summary PEOPLE scenarioC = Normal r ∧
       (∀ d, d ∈ debts r → (0 < Debt.amount d)%Qc) ∧
       (∀ d, d ∈ debts r →
             ¬ (Debt.from d = "zeynep"%string ∧ Debt.currency d = "TRY"%string)).
Proof.
  assert (- epsilon <= diff_of PEOPLE "TRY" scenarioC "zeynep")%Qc as Hge
    by (vm_compute; discriminate).
  destruct (debts_positive PEOPLE scenarioC) as (r & Hr & Hpos & Hexact).
  split; [exact Hge |]. exists r. split; [exact Hr |].
  split; [exact Hpos |]. exact (Hexact "zeynep"%string "TRY"%string Hge).
Defined.

(** ** Conservation *)

Lemma filter_and_Forall {A : Type} (P Q : A → Prop)
    `{!∀ x, Decision (P x), !∀ x, Decision (Q x)} (l : list A) :
  Forall Q l → filter (λ x, P x ∧ Q x) l = filter P l.
Proof.
  induction 1 as [|x l Hx _ IH]; [done |].
  destruct (decide (P x)) as [HP|HP].
  - rewrite !filter_cons_True by done. by rewrite IH.
  - rewrite !filter_cons_False by (try intros [? _]; done). done.
Qed.

Lemma debts_of_participants people es :
  Forall (λ d, Debt.from d ∈ people ∧ Debt.to d ∈ people) (debts_of people es).
Proof.
  apply Forall_forall. intros d (c & _ & Hd)%elem_of_debts_of.
  by apply debts_in_facts in Hd as (_ & ? & ? & _).
Qed.

(** C1.  In every currency, the debt amounts whose debtor is a participant
    and the debt amounts whose creditor is a participant have the same sum:
    both are the sum of all the debts of that currency, so the two sums are
    equal, hence within [0.01] of each other. *)
Theorem debts_conservation people es c :
  ∃ r, summary people es = Normal r ∧
       owed_by people c (debts r) = due_to people c (debts r) ∧
       (Qcabs (owed_by people c (debts r) - due_to people c (debts r))
        <= epsilon)%Qc ∧
       owed_by people c (debts r)
       = sum_debts (filter (λ d, Debt.currency d = c) (debts r)).
Proof.
  eexists. split; [apply summary_normal |]. cbn [debts].
  pose proof (debts_of_participants people es) as Hall.
  assert (owed_by people c (debts_of people es)
          = sum_debts (filter (λ d, Debt.currency d = c) (debts_of people es)))
    as Howed.
  { unfold owed_by. f_equal.
    apply (filter_and_Forall (λ d, Debt.currency d = c)
             (λ d, Debt.from d ∈ people)).
    eapply Forall_impl; [exact Hall |]. by intros d [? _]. }
  assert (due_to people c (debts_of people es)
          = sum_debts (filter (λ d, Debt.currency d = c) (debts_of people es)))
    as Hdue.
  { unfold due_to. f_equal.
    apply (filter_and_Forall (λ d, Debt.currency d = c)
             (λ d, Debt.to d ∈ people)).
    eapply Forall_impl; [exact Hall |]. by intros d [_ ?]. }
  assert (owed_by people c (debts_of people es)
          = due_to people c (debts_of people es)) as Heq by congruence.
  split; [done |]. split; [| done]. rewrite Heq.
  replace (due_to people c (debts_of people es)
           - due_to people c (debts_of people es))%Qc with 0%Qc by ring.
  done.
Qed.

(** ** Solo expenses *)

Lemma byCurrency_upd_solo m e : split e = solo → byCurrency_upd m e = m.
Proof.
  intros Hs. unfold byCurrency_upd. rewrite decide_False; [done | congruence].
Qed.

Lemma byCurrency_all_solo es m :
  Forall (λ e, split e = solo) es → foldl byCurrency_upd m es = m.
Proof.
  induction 1 as [|e es He _ IH]; [done |].
  cbn [foldl]. by rewrite byCurrency_upd_solo.
Qed.

Lemma totals_read es c :
  or0 (foldl totals_upd ∅ es !! c)
  = sum_amounts (filter (λ e, currency e = c) es).
Proof. by rewrite totals_lookup, or0_sum_entry. Qed.

Lemma perPerson_read_sum es p c :
  or0 (perPerson_read (foldl perPerson_upd ∅ es) p c)
  = sum_amounts (filter (λ e, paid_by e = p ∧ currency e = c) es).
Proof. by rewrite perPerson_read_lookup, or0_sum_entry. Qed.

(** C4.  An expense with split mode [solo] adds its amount to
    [totals[currency]] and to [perPerson[paid_by][currency]] and changes no
    debt: the debts are those computed without it.  A list of solo expenses
    only yields an empty [debts]. *)
Theorem solo_exclusion people es1 e es2 solos :
  split e = solo →
  Forall (λ x, split x = solo) solos →
  ∃ r r' rs,
    summary people (es1 ++ e :: es2) = Normal r ∧
    summary people (es1 ++ es2) = Normal r' ∧
    summary people solos = Normal rs ∧
    or0 (totals r !! currency e)
    = (or0 (totals r' !! currency e) + amount e)%Qc ∧
    or0 (perPerson_read (perPerson r) (paid_by e) (currency e))
    = (or0 (perPerson_read (perPerson r') (paid_by e) (currency e))
       + amount e)%Qc ∧
    debts r = debts r' ∧
    debts rs = [].
Proof.
  intros Hsolo Hsolos. do 3 eexists.
  do 3 (split; [apply summary_normal |]). cbn [totals perPerson debts].
  repeat split.
  - rewrite !totals_read, !filter_app, filter_cons_True by done.
    rewrite !sum_amounts_app. csimpl. ring.
  - rewrite !perPerson_read_sum, !filter_app, filter_cons_True by done.
    rewrite !sum_amounts_app. csimpl. ring.
  - unfold debts_of, byCurrency_of. rewrite !foldl_app. cbn [foldl].
    by rewrite byCurrency_upd_solo.
  - unfold debts_of, byCurrency_of. by rewrite byCurrency_all_solo.
Qed.

Lemma solo_exclusion_witness :
  split (expense 40 "EUR" "zeynep" solo) = solo ∧
  Forall (λ x, split x = solo) [expense 40 "EUR" "zeynep" solo] ∧
  ∃ r r' rs,
    summary PEOPLE ([] ++ expense 40 "EUR" "zeynep" solo :: []) = Normal r ∧
    summary PEOPLE ([] ++ []) = Normal r' ∧
    summary PEOPLE [expense 40 "EUR" "zeynep" solo] = Normal rs ∧
    or0 (totals r !! "EUR"%string)
    = (or0 (totals r' !! "EUR"%string) + Q2Qc 40)%Qc ∧
    or0 (perPerson_read (perPerson r) "zeynep" "EUR")
    = (or0 (perPerson_read (perPerson r') "zeynep" "EUR") + Q2Qc 40)%Qc ∧
    debts r = debts r' ∧
    debts rs = [].
Proof.
  split; [reflexivity |]. split; [repeat constructor |].
  apply (solo_exclusion PEOPLE [] (expense 40 "EUR" "zeynep" solo) []
           [expense 40 "EUR" "zeynep" solo]);
    [reflexivity | repeat constructor].
Defined.

(** ** Currencies do not mix *)

Lemma group_skip c es1 e es2 :
  currency e ≠ c → group c (es1 ++ e :: es2) = group c (es1 ++ es2).
Proof.
  intros Hne. unfold group. rewrite !filter_app.
  rewrite filter_cons_False; [done |]. by intros [_ ?].
Qed.

Lemma debts_of_filter_group people es es' c :
  group c es = group c es' →
  filter (λ d, Debt.currency d = c) (debts_of people es)
  = filter (λ d, Debt.currency d = c) (debts_of people es').
Proof.
  intros Hg. rewrite !debts_of_filter. unfold debts_in. rewrite Hg.
  destruct (decide (c ∈ currencies es)) as [Hin|Hin];
    destruct (decide (c ∈ currencies es')) as [Hin'|Hin']; try done;
    rewrite elem_of_currencies in Hin; rewrite elem_of_currencies in Hin';
    rewrite Hg in Hin; done.
Qed.

(** C5.  Adding or removing an expense in a currency other than [B] leaves
    [totals[B]], every [perPerson[p][B]] and the debts of currency [B]
    unchanged. *)
Theorem currency_isolation people es1 e es2 B :
  currency e ≠ B →
  ∃ r r',
    summary people (es1 ++ e :: es2) = Normal r ∧
    summary people (es1 ++ es2) = Normal r' ∧
    totals r !! B = totals r' !! B ∧
    (∀ p, perPerson_read (perPerson r) p B = perPerson_read (perPerson r') p B) ∧
    filter (λ d, Debt.currency d = B) (debts r)
    = filter (λ d, Debt.currency d = B) (debts r').
Proof.
  intros Hne. do 2 eexists.
  do 2 (split; [apply summary_normal |]). cbn [totals perPerson debts].
  repeat split.
  - rewrite !totals_lookup, !filter_app. by rewrite filter_cons_False.
  - intros p. rewrite !perPerson_read_lookup, !filter_app.
    rewrite filter_cons_False; [done |]. by intros [_ ?].
  - apply debts_of_filter_group. by apply group_skip.
Qed.

Lemma currency_isolation_witness :
  currency (expense 30 "USD" "bartu" equal) ≠ "TRY"%string ∧
  ∃ r r',
    summary PEOPLE ([expense 100 "TRY" "zeynep" equal]
                    ++ expense 30 "USD" "bartu" equal :: []) = Normal r ∧
    summary PEOPLE ([expense 100 "TRY" "zeynep" equal] ++ []) = Normal r' ∧
    totals r !! "TRY"%string = totals r' !! "TRY"%string ∧
    (∀ p, perPerson_read (perPerson r) p "TRY"
          = perPerson_read (perPerson r') p "TRY") ∧
    filter (λ d, Debt.currency d = "TRY"%string) (debts r)
    = filter (λ d, Debt.currency d = "TRY"%string) (debts r').
Proof.
  split; [discriminate |].
  apply (currency_isolation PEOPLE [expense 100 "TRY" "zeynep" equal]
           (expense 30 "USD" "bartu" equal) [] "TRY").
  discriminate.
Defined.

(** ** Order of the expenses *)

Lemma totals_Permutation es1 es2 :
  es1 ≡ₚ es2 → foldl totals_upd ∅ es1 = foldl totals_upd ∅ es2.
Proof.
  intros Hperm. apply map_eq. intros c. rewrite !totals_lookup.
  apply sum_entry_Permutation. by rewrite Hperm.
Qed.

Lemma perPerson_Permutation es1 es2 :
  es1 ≡ₚ es2 → foldl perPerson_upd ∅ es1 = foldl perPerson_upd ∅ es2.
Proof.
  intros Hperm. apply map_eq. intros p. rewrite !perPerson_lookup.
  assert (filter (λ e, paid_by e = p) es1 ≡ₚ filter (λ e, paid_by e = p) es2)
    as Hf by by rewrite Hperm.
  destruct (filter _ es1) as [|e1 l1], (filter _ es2) as [|e2 l2].
  - done.
  - by apply Permutation_nil_cons in Hf.
  - symmetry in Hf. by apply Permutation_nil_cons in Hf.
  - rewrite lookup_empty. f_equal. by apply totals_Permutation.
Qed.

Lemma group_Permutation c es1 es2 : es1 ≡ₚ es2 → group c es1 ≡ₚ group c es2.
Proof. intros Hperm. unfold group. by rewrite Hperm. Qed.

Lemma debts_in_Permutation people c es1 es2 :
  es1 ≡ₚ es2 → debts_in people c es1 = debts_in people c es2.
Proof.
  intros Hperm%(group_Permutation c). unfold debts_in, group_debts. csimpl.
  by rewrite (paid_of_Permutation _ _ _ Hperm),
             (perHead_Permutation _ _ _ Hperm).
Qed.

Lemma currencies_Permutation es1 es2 :
  es1 ≡ₚ es2 → currencies es1 ≡ₚ currencies es2.
Proof.
  intros Hperm. apply NoDup_Permutation; try apply currencies_NoDup.
  intros c. rewrite !elem_of_currencies.
  pose proof (group_Permutation c _ _ Hperm) as Hg.
  split; intros Hne Hnil; apply Hne.
  - rewrite Hnil in Hg. by apply Permutation_nil_r in Hg.
  - rewrite Hnil in Hg. by apply Permutation_nil_l in Hg.
Qed.

Lemma debts_of_Permutation people es1 es2 :
  es1 ≡ₚ es2 → debts_of people es1 ≡ₚ debts_of people es2.
Proof.
  intros Hperm. rewrite !debts_of_currencies.
  rewrite (currencies_Permutation _ _ Hperm).
  erewrite list_bind_ext; [reflexivity | | reflexivity].
  intros c. by apply debts_in_Permutation.
Qed.

(** C6.  Permuting the expenses changes neither [totals] nor [perPerson],
    and the debts are the same up to their order: the same multiset, hence
    the same set.  (Exact arithmetic: amounts are rationals.) *)
Theorem order_independence people es es' :
  es ≡ₚ es' →
  ∃ r r',
    summary people es = Normal r ∧
    summary people es' = Normal r' ∧
    totals r = totals r' ∧
    perPerson r = perPerson r' ∧
    debts r ≡ₚ debts r' ∧
    (∀ d, d ∈ debts r ↔ d ∈ debts r').
Proof.
  intros Hperm. do 2 eexists.
  do 2 (split; [apply summary_normal |]). cbn [totals perPerson debts].
  pose proof (debts_of_Permutation people _ _ Hperm) as Hd.
  split; [by apply totals_Permutation |].
  split; [by apply perPerson_Permutation |].
  split; [done |]. intros d. by rewrite Hd.
Qed.

Lemma order_independence_witness :
  [expense 100 "TRY" "zeynep" equal; expense 30 "USD" "bartu" equal]
  ≡ₚ [expense 30 "USD" "bartu" equal; expense 100 "TRY" "zeynep" equal] ∧
  ∃ r r',
    summary PEOPLE [expense 100 "TRY" "zeynep" equal;
                    expense 30 "USD" "bartu" equal] = Normal r ∧
    summary PEOPLE [expense 30 "USD" "bartu" equal;
                    expense 100 "TRY" "zeynep" equal] = Normal r' ∧
    totals r = totals r' ∧
    perPerson r = perPerson r' ∧
    debts r ≡ₚ debts r' ∧
    (∀ d, d ∈ debts r ↔ d ∈ debts r').
Proof.
  split; [apply perm_swap |].
  apply (order_independence PEOPLE
           [expense 100 "TRY" "zeynep" equal; expense 30 "USD" "bartu" equal]
           [expense 30 "USD" "bartu" equal; expense 100 "TRY" "zeynep" equal]).
  apply perm_swap.
Defined.

(** ** Two participants *)






Lemma person_debt_length people paid ph cur p :
  length (person_debt people paid ph cur p) ≤ 1.
Proof.
  unfold person_debt, person_step.
  destruct (Qcltb _ _); [| csimpl; lia].
  destruct (creditor_of _ _ _ _) as [cr|]; [| csimpl; lia].
  destruct (truthy cr); csimpl; lia.
Qed.







(** * Further properties of the budget screen *)

(** ** Completion *)

(** X1.  For every participant list and every expense list the computation
    completes normally: neither [perPerson[e.paid_by][e.currency]] nor
    [byCurrency.get(e.currency)!.push(e)] is ever evaluated on an undefined
    value. *)
Theorem summary_completes people es :
  summary people es ≠ TypeError ∧ ∃ r, summary people es = Normal r.
Proof. rewrite summary_normal. split; [discriminate | by eexists]. Qed.

(** ** Keys of the totals *)

Lemma sum_entry_is_Some es : is_Some (sum_entry es) ↔ es ≠ [].
Proof.
  destruct es as [|e l]; csimpl.
  - split; [by intros [? ?] | done].
  - split; [done | by eexists].
Qed.

Lemma filter_nonempty {A : Type} (P : A → Prop) `{!∀ x, Decision (P x)}
    (l : list A) :
  filter P l ≠ [] ↔ ∃ x, x ∈ l ∧ P x.
Proof.
  split.
  - destruct (filter P l) as [|x l'] eqn:Hf; [done |]. intros _.
    assert (x ∈ filter P l) as Hx by (rewrite Hf; left).
    apply list_elem_of_filter in Hx as [? ?]. by exists x.
  - intros (x & Hx & HP) Hnil.
    assert (x ∈ filter P l) as Hin by (by apply list_elem_of_filter).
    rewrite Hnil in Hin. by apply elem_of_nil in Hin.
Qed.

(** X2.  [totals] has a key exactly for the currencies that occur in the
    expenses, so it is empty only for the empty list: the placeholder shown
    when [Object.keys(summary.totals).length === 0] stands for "no expense". *)
Theorem totals_keys people es :
  ∃ r, summary people es = Normal r ∧
       (∀ c, is_Some (totals r !! c) ↔ ∃ e, e ∈ es ∧ currency e = c) ∧
       (totals r = ∅ ↔ es = []).
Proof.
  eexists. split; [apply summary_normal |]. cbn [totals].
  assert (∀ c, is_Some (foldl totals_upd ∅ es !! c)
               ↔ ∃ e, e ∈ es ∧ currency e = c) as Hkeys.
  { intros c. rewrite totals_lookup, sum_entry_is_Some.
    apply filter_nonempty. }
  split; [exact Hkeys |]. split.
  - intros Hempty. destruct es as [|e es]; [done |]. exfalso.
    assert (is_Some (foldl totals_upd ∅ (e :: es) !! currency e)) as [x Hx].
    { apply Hkeys. exists e. split; [left | done]. }
    rewrite Hempty, lookup_empty in Hx. done.
  - by intros ->.
Qed.

(** ** The per-person amounts add up *)

Lemma sum_amounts_by_payer (P : Expense → Prop) `{!∀ e, Decision (P e)}
    (ps : list string) (es : list Expense) :
  NoDup ps →
  sum_list ((λ p, sum_amounts (filter (λ e, paid_by e = p ∧ P e) es)) <$> ps)
  = sum_amounts (filter (λ e, paid_by e ∈ ps ∧ P e) es).
Proof.
  induction 1 as [|q ps Hq Hnd IH]; csimpl.
  - rewrite filter_none; [done |].
    apply Forall_forall. intros e _ [Hin _]. by apply elem_of_nil in Hin.
  - rewrite IH. clear IH. induction es as [|e es IHes]; csimpl; [ring |].
    destruct (decide (P e)) as [HP|HP].
    + destruct (decide (paid_by e = q)) as [Heq|Hne].
      * rewrite (filter_cons_True (λ e, paid_by e = q ∧ P e)) by done.
        rewrite (filter_cons_False (λ e, paid_by e ∈ ps ∧ P e))
          by (intros [Hin _]; congruence).
        rewrite (filter_cons_True (λ e, paid_by e ∈ q :: ps ∧ P e))
          by (split; [rewrite Heq; left | done]).
        csimpl. rewrite <- IHes. ring.
      * rewrite (filter_cons_False (λ e, paid_by e = q ∧ P e))
          by (by intros [? _]).
        destruct (decide (paid_by e ∈ ps)) as [Hin|Hin].
        -- rewrite (filter_cons_True (λ e, paid_by e ∈ ps ∧ P e)) by done.
           rewrite (filter_cons_True (λ e, paid_by e ∈ q :: ps ∧ P e))
             by (split; [by right | done]).
           csimpl. rewrite <- IHes. ring.
        -- rewrite (filter_cons_False (λ e, paid_by e ∈ ps ∧ P e))
             by (by intros [? _]).
           rewrite (filter_cons_False (λ e, paid_by e ∈ q :: ps ∧ P e)).
           ++ exact IHes.
           ++ intros [[?|?]%elem_of_cons _]; done.
    + rewrite !filter_cons_False by (by intros [_ ?]). exact IHes.
Qed.

Lemma filter_ext_in {A : Type} (P Q : A → Prop)
    `{!∀ x, Decision (P x), !∀ x, Decision (Q x)} (l : list A) :
  (∀ x, x ∈ l → (P x ↔ Q x)) → filter P l = filter Q l.
Proof.
  induction l as [|x l IH]; intros Hext; [done |].
  assert (filter P l = filter Q l) as Hl
    by (apply IH; intros y Hy; apply Hext; by right).
  destruct (decide (P x)) as [HP|HP].
  - rewrite !filter_cons_True; [by rewrite Hl | | done].
    apply Hext; [left | done].
  - rewrite !filter_cons_False; [done | | done].
    intros HQ. apply HP, Hext; [left | done].
Qed.

(** X3.  For a currency, the amounts recorded per payer add up to the total
    of that currency ([undefined] read as zero), over any duplicate-free list
    of payers that contains every payer of the expenses. *)
Theorem perPerson_adds_up people es ps c :
  NoDup ps →
  (∀ e, e ∈ es → paid_by e ∈ ps) →
  ∃ r, summary people es = Normal r ∧
       sum_list ((λ p, or0 (perPerson_read (perPerson r) p c)) <$> ps)
       = or0 (totals r !! c).
Proof.
  intros Hnd Hps. eexists. split; [apply summary_normal |].
  cbn [totals perPerson]. rewrite totals_read.
  transitivity (sum_amounts (filter (λ e, paid_by e ∈ ps ∧ currency e = c) es)).
  - rewrite <- (sum_amounts_by_payer (λ e, currency e = c) ps es Hnd).
    f_equal. apply list_fmap_ext. intros _ p _. apply perPerson_read_sum.
  - f_equal. apply filter_ext_in. intros e He. split; [by intros [_ ?] |].
    intros Hc. split; [by apply Hps | done].
Qed.

Lemma PEOPLE_NoDup : NoDup PEOPLE.
Proof.
  unfold PEOPLE. apply NoDup_cons. split.
  - intros Hin%list_elem_of_singleton. discriminate.
  - apply NoDup_singleton.
Qed.

Lemma perPerson_adds_up_witness :
  NoDup PEOPLE ∧
  (∀ e, e ∈ scenarioD → paid_by e ∈ PEOPLE) ∧
  ∃ r, summary PEOPLE scenarioD = Normal r ∧
       sum_list ((λ p, or0 (perPerson_read (perPerson r) p "TRY")) <$> PEOPLE)
       = or0 (totals r !! "TRY"%string).
Proof.
  pose proof PEOPLE_NoDup as Hnd.
  assert (∀ e, e ∈ scenarioD → paid_by e ∈ PEOPLE) as Hps.
  { apply Forall_forall. repeat constructor. }
  split; [exact Hnd |]. split; [exact Hps |].
  exact (perPerson_adds_up PEOPLE scenarioD PEOPLE "TRY" Hnd Hps).
Defined.

(** ** What a debt is *)

(** X5.  Every emitted debt is between two different participants, in a
    currency that has an equal-split expense; the creditor paid strictly more
    than [perHead] in that currency group and the amount is what the debtor
    paid less than [perHead]. *)
Theorem debts_between_participants people es :
  ∃ r, summary people es = Normal r ∧
       ∀ d, d ∈ debts r →
         Debt.from d ∈ people ∧ Debt.to d ∈ people ∧
         Debt.from d ≠ Debt.to d ∧
         (∃ e, e ∈ es ∧ split e = equal ∧ currency e = Debt.currency d) ∧
         (perHead_in people (Debt.currency d) es
          < or0 (paid_in people (Debt.currency d) es !! Debt.to d))%Qc ∧
         Debt.amount d
         = (perHead_in people (Debt.currency d) es
            - or0 (paid_in people (Debt.currency d) es !! Debt.from d))%Qc.
Proof.
  eexists. split; [apply summary_normal |]. cbn [debts].
  intros d (c & Hc & Hd)%elem_of_debts_of.
  apply debts_in_facts in Hd as (<- & Hfrom & Hto & Hne & Hlt & Hgt & Hamount).
  repeat split; try done.
  - apply elem_of_currencies, filter_nonempty in Hc as (e & He & Hs & Hcur).
    by exists e.
  - rewrite Hamount. unfold diff_of in *. rewrite Qcabs_neg.
    + ring.
    + revert Hlt. unfold epsilon. qc_to_q. lra.
Qed.

Lemma bind_filter_one {A : Type} (f : string → list A) (key : A → string)
    (ps : list string) (p : string) :
  NoDup ps →
  (∀ q x, x ∈ f q → key x = q) →
  (∀ q, length (f q) ≤ 1) →
  length (filter (λ x, key x = p) (ps ≫= f)) ≤ 1.
Proof.
  intros Hnd Hkey Hlen. induction Hnd as [|q ps Hq Hnd IH]; csimpl; [lia |].
  rewrite filter_app, length_app. destruct (decide (q = p)) as [->|Hne].
  - rewrite (filter_none _ (ps ≫= f)).
    + pose proof (length_filter (λ x, key x = p) (f p)).
      specialize (Hlen p). csimpl. lia.
    + apply Forall_forall. intros x (q & Hx & Hin)%list_elem_of_bind Hk.
      apply Hkey in Hx. congruence.
  - rewrite (filter_none _ (f q)); [csimpl; lia |].
    apply Forall_forall. intros x Hx Hk. apply Hkey in Hx. congruence.
Qed.

(** X6.  When the participant list has no duplicate, a participant is the
    debtor of at most one debt per currency. *)
Theorem one_debt_per_debtor people es p c :
  NoDup people →
  ∃ r, summary people es = Normal r ∧
       length (filter (λ d, Debt.currency d = c ∧ Debt.from d = p) (debts r))
       ≤ 1.
Proof.
  intros Hnd. eexists. split; [apply summary_normal |]. cbn [debts].
  rewrite (filter_and (λ d, Debt.currency d = c) (λ d, Debt.from d = p)).
  rewrite debts_of_filter. destruct (decide (c ∈ currencies es)); [| csimpl; lia].
  unfold debts_in, group_debts. csimpl.
  apply (bind_filter_one _ Debt.from); [done | |].
  - intros q d Hd. by apply elem_of_person_debt in Hd as (_ & cr & _ & _ & ->).
  - intros q. apply person_debt_length.
Qed.

Lemma one_debt_per_debtor_witness :
  NoDup PEOPLE ∧
  ∃ r, summary PEOPLE scenarioD = Normal r ∧
       length (filter (λ d, Debt.currency d = "TRY"%string
                            ∧ Debt.from d = "bartu"%string) (debts r))
       ≤ 1.
Proof.
  split; [exact PEOPLE_NoDup |].
  exact (one_debt_per_debtor PEOPLE scenarioD "bartu" "TRY" PEOPLE_NoDup).
Defined.

(** ** Deleting and adding expenses *)

Lemma handleDelete_absent i es : i ∉ (id <$> es) → handleDelete i es = es.
Proof.
  intros Hi. apply filter_all, Forall_forall. intros e He Heq.
  apply Hi, list_elem_of_fmap. by exists e.
Qed.

Lemma handleDelete_split es1 e es2 :
  NoDup (id <$> (es1 ++ e :: es2)) →
  handleDelete (id e) (es1 ++ e :: es2) = es1 ++ es2.
Proof.
  rewrite fmap_app, fmap_cons. intros Hnd.
  apply NoDup_app in Hnd as (_ & Hdisj & Hnd2).
  apply NoDup_cons in Hnd2 as [Hnotin _].
  unfold handleDelete. rewrite filter_app, filter_cons_False by (by intros ?).
  fold (handleDelete (id e) es1). fold (handleDelete (id e) es2).
  rewrite !handleDelete_absent; [done | done |].
  intros Hin. apply (Hdisj _ Hin). left.
Qed.

(** X7.  When identifiers are unique, deleting an expense lowers the total
    of its currency, and what its payer paid in that currency, by its amount;
    the totals and the debts of every other currency stay as they were. *)
Theorem delete_expense_summary people es e :
  NoDup (id <$> es) →
  e ∈ es →
  ∃ r r',
    summary people es = Normal r ∧
    summary people (handleDelete (id e) es) = Normal r' ∧
    or0 (totals r' !! currency e)
    = (or0 (totals r !! currency e) - amount e)%Qc ∧
    or0 (perPerson_read (perPerson r') (paid_by e) (currency e))
    = (or0 (perPerson_read (perPerson r) (paid_by e) (currency e))
       - amount e)%Qc ∧
    (∀ c, c ≠ currency e →
          totals r' !! c = totals r !! c ∧
          filter (λ d, Debt.currency d = c) (debts r')
          = filter (λ d, Debt.currency d = c) (debts r)).
Proof.
  intros Hnd (es1 & es2 & ->)%list_elem_of_split.
  rewrite handleDelete_split by done. do 2 eexists.
  do 2 (split; [apply summary_normal |]). cbn [totals perPerson debts].
  repeat split.
  - rewrite !totals_read, !filter_app, filter_cons_True by done.
    rewrite !sum_amounts_app. csimpl. ring.
  - rewrite !perPerson_read_sum, !filter_app, filter_cons_True by done.
    rewrite !sum_amounts_app. csimpl. ring.
  - rewrite !totals_lookup, !filter_app. by rewrite filter_cons_False.
  - apply debts_of_filter_group. symmetry. by apply group_skip.
Qed.

Lemma delete_expense_summary_witness :
  NoDup (id <$> [taxi; dinner]) ∧
  taxi ∈ [taxi; dinner] ∧
  ∃ r r',
    summary PEOPLE [taxi; dinner] = Normal r ∧
    summary PEOPLE (handleDelete (id taxi) [taxi; dinner]) = Normal r' ∧
    or0 (totals r' !! currency taxi)
    = (or0 (totals r !! currency taxi) - amount taxi)%Qc ∧
    or0 (perPerson_read (perPerson r') (paid_by taxi) (currency taxi))
    = (or0 (perPerson_read (perPerson r) (paid_by taxi) (currency taxi))
       - amount taxi)%Qc ∧
    (∀ c, c ≠ currency taxi →
          totals r' !! c = totals r !! c ∧
          filter (λ d, Debt.currency d = c) (debts r')
          = filter (λ d, Debt.currency d = c) (debts r)).
Proof.
  assert (NoDup (id <$> [taxi; dinner])) as Hnd.
  { csimpl. apply NoDup_cons. split; [| apply NoDup_singleton].
    intros Hin%list_elem_of_singleton. discriminate. }
  assert (taxi ∈ [taxi; dinner]) as Hin by left.
  split; [exact Hnd |]. split; [exact Hin |].
  exact (delete_expense_summary PEOPLE [taxi; dinner] taxi Hnd Hin).
Defined.



(** ** The order of the debts *)

Lemma byCurrency_keys_fold es m :
  (foldl byCurrency_upd m es).*1
  = foldl (λ seen c, if decide (c ∈ seen) then seen else seen ++ [c])
          m.*1 (shared_currencies es).
Proof.
  unfold shared_currencies. revert m.
  induction es as [|e es IH]; intros m; [done |].
  cbn [foldl]. rewrite IH. unfold byCurrency_upd.
  destruct (decide (split e = equal)) as [Heq|Hne].
  - rewrite filter_cons_True by done. csimpl. by rewrite Map_set_keys.
  - by rewrite filter_cons_False.
Qed.

Lemma currencies_first_occurrences es :
  currencies es = first_occurrences (shared_currencies es).
Proof. apply (byCurrency_keys_fold es []). Qed.

(** X13.  The debts come grouped by currency, the currencies in the order in
    which they first occur among the equal-split expenses: the list of debts
    is the concatenation, over these currencies, of the debts of each. *)
Theorem debts_order people es :
  ∃ r, summary people es = Normal r ∧
       debts r = first_occurrences (shared_currencies es)
                 ≫= (λ c, filter (λ d, Debt.currency d = c) (debts r)).
Proof.
  eexists. split; [apply summary_normal |]. cbn [debts].
  rewrite <- currencies_first_occurrences.
  rewrite debts_of_currencies at 1.
  apply Forall_bind_ext, Forall_forall. intros c Hc.
  by rewrite debts_of_filter, decide_True.
Qed.

Example debts_order_scenarioD :
  first_occurrences (shared_currencies scenarioD) = ["TRY"; "USD"]%string.
Proof. reflexivity. Qed.

(** * Properties of the plan screen *)

(** ** Grouping by date *)

Global Instance string_le_total : Total string_le.
Proof. intros a b. apply String.leb_total. Qed.

Lemma plan_item_step_normal st item :
  Plan.item_step st item = Normal (Plan.item_upd st item).
Proof.
  destruct st as [dated und].
  unfold Plan.item_step, Plan.item_upd, Plan.date_key, Map_has.
  destruct (Item.date item) as [key|]; [| done].
  destruct (truthy key); [| done]. csimpl.
  destruct (Map_get dated key) as [items|] eqn:Hget; csimpl.
  - by rewrite Hget.
  - rewrite Map_get_set, decide_True by done. csimpl.
    by rewrite Map_set_set.
Qed.

Lemma plan_forEach_items items st :
  forEach Plan.item_step items st = Normal (foldl Plan.item_upd st items).
Proof.
  revert st. induction items as [|i items IH]; intros st; [done |].
  cbn [forEach foldl]. rewrite plan_item_step_normal. apply IH.
Qed.

Lemma plan_on_date_snoc key items i :
  Plan.on_date key (items ++ [i])
  = Plan.on_date key items
    ++ (if decide (Plan.date_key i = Some key) then [i] else []).
Proof.
  unfold Plan.on_date. rewrite filter_app. by f_equal.
Qed.

Lemma plan_undated_snoc items i :
  Plan.undated (items ++ [i])
  = Plan.undated items ++ (if decide (Plan.date_key i = None) then [i] else []).
Proof.
  unfold Plan.undated. rewrite filter_app. by f_equal.
Qed.

(** What the first loop of [groupByDate] leaves in [dated] and [undated]. *)
Lemma plan_groups_inv items :
  NoDup (foldl Plan.item_upd ([], []) items).1.*1 ∧
  (∀ key, Map_get (foldl Plan.item_upd ([], []) items).1 key
          = match Plan.on_date key items with [] => None | l => Some l end) ∧
  (foldl Plan.item_upd ([], []) items).2 = Plan.undated items.
Proof.
  induction items as [|i items (IHnd & IHget & IHund)] using rev_ind.
  - split; [constructor | done].
  - rewrite foldl_app. cbn [foldl].
    destruct (foldl Plan.item_upd ([], []) items) as [dated und].
    cbn [fst snd] in *. unfold Plan.item_upd. cbn [fst snd].
    destruct (Plan.date_key i) as [k|] eqn:Hk; cbn [fst snd].
    + split; [by apply Map_set_NoDup |]. split.
      * intros key. rewrite Map_get_set, plan_on_date_snoc, Hk.
        destruct (decide (k = key)) as [->|Hne].
        -- rewrite decide_True by done. rewrite IHget.
           by destruct (Plan.on_date key items).
        -- rewrite decide_False by congruence.
           rewrite app_nil_r. apply IHget.
      * rewrite plan_undated_snoc, Hk, decide_False by done.
        by rewrite app_nil_r.
    + split; [done |]. split.
      * intros key. rewrite plan_on_date_snoc, Hk, decide_False by done.
        rewrite app_nil_r. apply IHget.
      * rewrite plan_undated_snoc, Hk, decide_True by done. by rewrite IHund.
Qed.

Lemma plan_section_step_Some label dated secs k v :
  Map_get dated k = Some v →
  Plan.section_step label dated secs k
  = Normal (secs ++ [Plan.mkSection (label k) v]).
Proof. intros Hget. unfold Plan.section_step. by rewrite Hget. Qed.

Lemma plan_forEach_sections label dated (f : string → list Item.t) ks secs :
  (∀ k, k ∈ ks → Map_get dated k = Some (f k)) →
  forEach (Plan.section_step label dated) ks secs
  = Normal (secs ++ ((λ k, Plan.mkSection (label k) (f k)) <$> ks)).
Proof.
  revert secs. induction ks as [|k ks IH]; intros secs Hget; csimpl.
  - by rewrite app_nil_r.
  - rewrite (plan_section_step_Some _ _ _ _ (f k)) by (apply Hget; left).
    csimpl. rewrite IH by (intros k' Hk'; apply Hget; by right).
    by rewrite <- app_assoc.
Qed.

Lemma plan_sortedKeys_Permutation items :
  Plan.sortedKeys items ≡ₚ (foldl Plan.item_upd ([], []) items).1.*1.
Proof. apply merge_sort_Permutation. Qed.

Lemma plan_elem_of_sortedKeys key items :
  key ∈ Plan.sortedKeys items ↔ Plan.on_date key items ≠ [].
Proof.
  rewrite plan_sortedKeys_Permutation.
  destruct (plan_groups_inv items) as (_ & Hget & _). specialize (Hget key).
  split.
  - intros Hin Hnil. rewrite Hnil in Hget. by apply Map_get_None in Hget.
  - intros Hne.
    destruct (decide (key ∈ (foldl Plan.item_upd ([], []) items).1.*1))
      as [|Hn]; [done |].
    apply Map_get_None in Hn. rewrite Hn in Hget.
    by destruct (Plan.on_date key items).
Qed.

Lemma plan_groupByDate_char label items :
  Plan.groupByDate label items
  = Normal (((λ key, Plan.mkSection (label key) (Plan.on_date key items))
             <$> Plan.sortedKeys items)
            ++ match Plan.undated items with
               | [] => []
               | und => [Plan.mkSection "Tarihsiz" und]
               end).
Proof.
  destruct (plan_groups_inv items) as (Hnd & Hget & Hund).
  unfold Plan.groupByDate. rewrite plan_forEach_items.
  destruct (foldl Plan.item_upd ([], []) items) as [dated und] eqn:Hfold.
  cbn [fst snd] in *. csimpl.
  rewrite (plan_forEach_sections label dated (λ k, Plan.on_date k items)).
  - csimpl. unfold Plan.sortedKeys. rewrite Hfold. cbn [fst]. rewrite Hund.
    destruct (Plan.undated items) as [|u us]; csimpl; [| done].
    by rewrite app_nil_r.
  - intros k Hk.
    assert (k ∈ Plan.sortedKeys items) as Hk'
      by (unfold Plan.sortedKeys; by rewrite Hfold).
    apply plan_elem_of_sortedKeys in Hk'. rewrite Hget.
    by destruct (Plan.on_date k items).
Qed.

Lemma plan_sortedKeys_NoDup items : NoDup (Plan.sortedKeys items).
Proof.
  rewrite plan_sortedKeys_Permutation. apply plan_groups_inv.
Qed.

(** X9.  [groupByDate] completes normally.  It returns one section per
    distinct date, in ascending order of the date strings, each holding the
    items of that date in input order under the title computed from the date,
    followed by a last section "Tarihsiz" with the undated items (date [null]
    or empty) when there are any. *)
Theorem plan_groupByDate_sections label items :
  Plan.groupByDate label items
  = Normal (((λ key, Plan.mkSection (label key) (Plan.on_date key items))
             <$> Plan.sortedKeys items)
            ++ match Plan.undated items with
               | [] => []
               | und => [Plan.mkSection "Tarihsiz" und]
               end) ∧
  Sorted string_le (Plan.sortedKeys items) ∧
  NoDup (Plan.sortedKeys items) ∧
  (∀ key, key ∈ Plan.sortedKeys items
          ↔ ∃ i, i ∈ items ∧ Plan.date_key i = Some key).
Proof.
  split; [apply plan_groupByDate_char |].
  split; [apply Sorted_merge_sort; apply _ |].
  split; [apply plan_sortedKeys_NoDup |].
  intros key. rewrite plan_elem_of_sortedKeys. apply filter_nonempty.
Qed.

(** [groupByDate] on the sample: the dates in ascending order, then the
    undated item; within a date the input order. *)
Example plan_groupByDate_runs :
  (λ r, match r with
        | Normal secs =>
            (λ s, (Plan.title s, Item.id <$> Plan.data s)) <$> secs
        | TypeError => []
        end)
    (Plan.groupByDate (λ k, k) Plan.sample)
  = [("2026-11-02", ["c"]); ("2026-11-10", ["a"; "d"]); ("Tarihsiz", ["b"])]%string.
Proof. vm_compute. reflexivity. Qed.

(** ** Every item lands in one section *)

Lemma plan_on_date_cons key i items :
  Plan.on_date key (i :: items)
  = if decide (Plan.date_key i = Some key)
    then i :: Plan.on_date key items else Plan.on_date key items.
Proof.
  unfold Plan.on_date. destruct (decide (Plan.date_key i = Some key)).
  - by rewrite filter_cons_True.
  - by rewrite filter_cons_False.
Qed.

Lemma plan_bind_on_date_skip ks i items :
  (∀ k, k ∈ ks → Plan.date_key i ≠ Some k) →
  ks ≫= (λ k, Plan.on_date k (i :: items)) = ks ≫= (λ k, Plan.on_date k items).
Proof.
  induction ks as [|k ks IH]; intros Hskip; [done |].
  rewrite !bind_cons, IH by (intros k' Hk'; apply Hskip; by right).
  rewrite plan_on_date_cons, decide_False; [done |]. apply Hskip. left.
Qed.

Lemma plan_bind_on_date_insert ks key i items :
  NoDup ks → key ∈ ks → Plan.date_key i = Some key →
  ks ≫= (λ k, Plan.on_date k (i :: items))
  ≡ₚ i :: (ks ≫= (λ k, Plan.on_date k items)).
Proof.
  intros Hnd Hin Hkey. induction Hnd as [|k ks Hk Hnd IH].
  - by apply elem_of_nil in Hin.
  - rewrite !bind_cons, plan_on_date_cons.
    destruct (decide (k = key)) as [->|Hne].
    + rewrite decide_True by done.
      rewrite plan_bind_on_date_skip; [done |].
      intros k' Hk' Heq. rewrite Hkey in Heq. congruence.
    + rewrite decide_False by (rewrite Hkey; congruence).
      apply elem_of_cons in Hin as [Heq|Hin]; [congruence |].
      rewrite IH by done. by rewrite <- Permutation_middle.
Qed.

Lemma plan_sections_Permutation ks items :
  NoDup ks →
  (∀ i key, i ∈ items → Plan.date_key i = Some key → key ∈ ks) →
  (ks ≫= (λ k, Plan.on_date k items)) ++ Plan.undated items ≡ₚ items.
Proof.
  intros Hnd. induction items as [|i items IH]; intros Hcover.
  - rewrite app_nil_r. clear. induction ks as [|k ks IH]; [done |].
    by rewrite bind_cons, IH.
  - assert ((ks ≫= (λ k, Plan.on_date k items)) ++ Plan.undated items
            ≡ₚ items) as IH'.
    { apply IH. intros i' key Hi'. apply Hcover. by right. }
    unfold Plan.undated in *.
    destruct (Plan.date_key i) as [key|] eqn:Hkey.
    + rewrite filter_cons_False by (rewrite Hkey; done).
      rewrite (plan_bind_on_date_insert ks key); [| done | | done].
      * csimpl. by rewrite IH'.
      * apply (Hcover i); [left | done].
    + rewrite filter_cons_True by done.
      rewrite plan_bind_on_date_skip by (intros k _; rewrite Hkey; done).
      rewrite <- Permutation_middle. by rewrite IH'.
Qed.

(** X10.  The sections of [groupByDate] partition the items: no section is
    empty, and the sections together hold every item exactly once; there is
    no section only when there is no item. *)
Theorem plan_groupByDate_partition label items :
  ∃ secs, Plan.groupByDate label items = Normal secs ∧
          Forall (λ s, Plan.data s ≠ []) secs ∧
          concat (Plan.data <$> secs) ≡ₚ items ∧
          (secs = [] ↔ items = []).
Proof.
  eexists. split; [apply plan_groupByDate_char |].
  assert (concat (Plan.data <$>
            ((λ key, Plan.mkSection (label key) (Plan.on_date key items))
             <$> Plan.sortedKeys items)
            ++ match Plan.undated items with
               | [] => []
               | und => [Plan.mkSection "Tarihsiz" und]
               end) ≡ₚ items) as Hperm.
  { assert (concat (Plan.data <$>
              ((λ key, Plan.mkSection (label key) (Plan.on_date key items))
               <$> Plan.sortedKeys items)
              ++ match Plan.undated items with
                 | [] => []
                 | und => [Plan.mkSection "Tarihsiz" und]
                 end)
            = (Plan.sortedKeys items ≫= (λ k, Plan.on_date k items))
              ++ Plan.undated items) as ->.
    { rewrite fmap_app, concat_app. f_equal.
      - induction (Plan.sortedKeys items) as [|k ks IH]; [done |].
        csimpl. by rewrite IH.
      - destruct (Plan.undated items); csimpl; [done | by rewrite app_nil_r]. }
    apply plan_sections_Permutation; [apply plan_sortedKeys_NoDup |].
    intros i key Hi Hkey. apply plan_elem_of_sortedKeys, filter_nonempty.
    by exists i. }
  split; [| split; [exact Hperm |]].
  - apply Forall_app. split.
    + apply Forall_fmap, Forall_forall. intros key Hkey. csimpl.
      by apply plan_elem_of_sortedKeys.
    + destruct (Plan.undated items) as [|u us]; repeat constructor. done.
  - split.
    + intros Hnil. rewrite Hnil in Hperm. csimpl in Hperm.
      by apply Permutation_nil_l in Hperm.
    + intros ->. done.
Qed.

(** ** Marking an item visited *)

Lemma plan_keys_fmap (f : Item.t → Item.t) items st st' :
  (∀ i, Plan.date_key (f i) = Plan.date_key i) →
  st'.1.*1 = st.1.*1 →
  (foldl Plan.item_upd st' (f <$> items)).1.*1
  = (foldl Plan.item_upd st items).1.*1.
Proof.
  intros Hf. revert st st'.
  induction items as [|i items IH]; intros st st' Hkeys; [done |].
  csimpl. apply IH. unfold Plan.item_upd. rewrite Hf.
  destruct st as [m u], st' as [m' u']. cbn [fst snd] in *.
  destruct (Plan.date_key i) as [k|]; cbn [fst snd]; [| done].
  rewrite (Map_set_keys m'), (Map_set_keys m). by rewrite Hkeys.
Qed.

Lemma filter_fmap_preserved {A : Type} (P : A → Prop) `{!∀ x, Decision (P x)}
    (f : A → A) (l : list A) :
  (∀ x, P (f x) ↔ P x) → filter P (f <$> l) = f <$> filter P l.
Proof.
  intros Hf. induction l as [|x l IH]; [done |]. csimpl.
  destruct (decide (P x)) as [HP|HP].
  - rewrite (filter_cons_True P (f x)) by (by apply Hf).
    rewrite (filter_cons_True P x) by done. csimpl. by rewrite IH.
  - rewrite (filter_cons_False P (f x)) by (by rewrite Hf).
    by rewrite (filter_cons_False P x).
Qed.

Lemma plan_groupByDate_fmap label (f : Item.t → Item.t) items :
  (∀ i, Plan.date_key (f i) = Plan.date_key i) →
  ∃ secs, Plan.groupByDate label items = Normal secs ∧
          Plan.groupByDate label (f <$> items)
          = Normal ((λ s, Plan.mkSection (Plan.title s) (f <$> Plan.data s))
                    <$> secs).
Proof.
  intros Hf. eexists. split; [apply plan_groupByDate_char |].
  rewrite plan_groupByDate_char.
  assert (Plan.sortedKeys (f <$> items) = Plan.sortedKeys items) as ->.
  { unfold Plan.sortedKeys. by rewrite (plan_keys_fmap f items ([], [])). }
  assert (∀ key, Plan.on_date key (f <$> items) = f <$> Plan.on_date key items)
    as Hon.
  { intros key. apply filter_fmap_preserved. intros i. by rewrite Hf. }
  assert (Plan.undated (f <$> items) = f <$> Plan.undated items) as ->.
  { apply filter_fmap_preserved. intros i. by rewrite Hf. }
  f_equal. rewrite fmap_app, <- list_fmap_compose. f_equal.
  - apply list_fmap_ext. intros _ key _. csimpl. by rewrite Hon.
  - by destruct (Plan.undated items).
Qed.

Lemma plan_date_key_visited itemId i :
  Plan.date_key (if decide (Item.id i = itemId) then Plan.set_visited i else i)
  = Plan.date_key i.
Proof. by destruct (decide (Item.id i = itemId)). Qed.

(** X11.  Marking an item visited keeps the list in place (same identifiers
    in the same order) and does not regroup it: [groupByDate] returns the
    same sections, with the same titles in the same order, each holding its
    items after the update. *)
Theorem plan_markVisited_sections label itemId items :
  Item.id <$> Plan.handleMarkVisited itemId items = Item.id <$> items ∧
  ∃ secs, Plan.groupByDate label items = Normal secs ∧
          Plan.groupByDate label (Plan.handleMarkVisited itemId items)
          = Normal ((λ s, Plan.mkSection (Plan.title s)
                            (Plan.handleMarkVisited itemId (Plan.data s)))
                    <$> secs).
Proof.
  split.
  - unfold Plan.handleMarkVisited. rewrite <- list_fmap_compose.
    apply list_fmap_ext. intros _ i _. csimpl.
    by destruct (decide (Item.id i = itemId)).
  - apply (plan_groupByDate_fmap label
             (λ i, if decide (Item.id i = itemId) then Plan.set_visited i else i)).
    intros i. apply plan_date_key_visited.
Qed.

(** ** The countdown *)

Lemma plan_ceil_days_spec x :
  ((Plan.ceil_days x - 1) * Plan.msPerDay < x ≤ Plan.ceil_days x * Plan.msPerDay)%Z.
Proof.
  unfold Plan.ceil_days.
  pose proof (Z.div_mod (- x) Plan.msPerDay) as Hdm.
  pose proof (Z.mod_pos_bound (- x) Plan.msPerDay) as Hmod.
  unfold Plan.msPerDay in *. lia.
Qed.

(** X12.  [getCountdown] on a non-empty start date.  When the date does not
    parse, the result is the text "NaN gün kaldı".  Otherwise: nothing when
    the start lies a full day or more in the past; "Bugün! 🎉" when it lies
    less than a day in the past, or is now; and otherwise "n gün kaldı" where
    n is the number of days, counting a started day as a whole one, until the
    start. *)
Theorem plan_getCountdown_cases getTime now s :
  truthy s = true →
  match getTime s with
  | None =>
      Plan.getCountdown getTime now (Some s) = Some "NaN gün kaldı"
  | Some start =>
      ((start + Plan.msPerDay ≤ now)%Z →
       Plan.getCountdown getTime now (Some s) = None) ∧
      ((now - Plan.msPerDay < start ≤ now)%Z →
       Plan.getCountdown getTime now (Some s) = Some "Bugün! 🎉") ∧
      ((now < start)%Z →
       ∃ n, (1 ≤ n)%Z ∧
            ((n - 1) * Plan.msPerDay < start - now ≤ n * Plan.msPerDay)%Z ∧
            Plan.getCountdown getTime now (Some s)
            = Some (pretty n +:+ " gün kaldı"))
  end.
Proof.
  intros Hs. unfold Plan.getCountdown. rewrite Hs. cbn [negb].
  destruct (getTime s) as [start|]; [| done].
  pose proof (plan_ceil_days_spec (start - now)) as Hceil.
  cbv zeta. set (diff := Plan.ceil_days (start - now)) in *.
  unfold Plan.msPerDay in *.
  split; [| split].
  - intros Hpast. assert (diff < 0)%Z as Hneg by lia.
    apply Z.ltb_lt in Hneg. by rewrite Hneg.
  - intros Htoday. assert (diff = 0)%Z as -> by lia. done.
  - intros Hfuture. exists diff. assert (1 ≤ diff)%Z as Hpos by lia.
    split; [done |]. split; [lia |].
    destruct (diff <? 0)%Z eqn:E1; [apply Z.ltb_lt in E1; lia |].
    destruct (diff =? 0)%Z eqn:E2; [apply Z.eqb_eq in E2; lia |]. done.
Qed.

(** A start date three and a half days ahead: "4 gün kaldı". *)
Lemma plan_getCountdown_cases_witness :
  truthy "2026-11-10" = true ∧
  ((1000 < 302401000)%Z →
   ∃ n, (1 ≤ n)%Z ∧
        ((n - 1) * Plan.msPerDay < 302401000 - 1000 ≤ n * Plan.msPerDay)%Z ∧
        Plan.getCountdown (λ _, Some 302401000%Z) 1000 (Some "2026-11-10")
        = Some (pretty n +:+ " gün kaldı")).
Proof.
  split; [reflexivity |].
  exact (proj2 (proj2 (plan_getCountdown_cases (λ _, Some 302401000%Z) 1000
                         "2026-11-10" eq_refl))).
Defined.

Example plan_getCountdown_runs :
  Plan.getCountdown (λ _, Some 302401000%Z) 1000 (Some "2026-11-10")
  = Some "4 gün kaldı"
  ∧ Plan.getCountdown (λ _, Some 1000%Z) 50000 (Some "2026-11-03")
    = Some "Bugün! 🎉"
  ∧ Plan.getCountdown (λ _, None) 50000 (Some "soon") = Some "NaN gün kaldı"
  ∧ Plan.getCountdown (λ _, Some 0%Z) 86400000 (Some "1970-01-01") = None
  ∧ Plan.getCountdown (λ _, Some 0%Z) 0 (Some "") = None.
Proof. repeat split; vm_compute; reflexivity. Qed.

(** * Properties of the moments screen *)

Section MomentsFacts.
Variable dayKey : string → string.

Lemma moments_step_normal grouped m :
  Moments.moment_step dayKey grouped m
  = Normal (Moments.moment_upd dayKey grouped m).
Proof.
  unfold Moments.moment_step, Moments.moment_upd, Map_has. cbv zeta.
  destruct (Map_get grouped _) as [items|] eqn:Hget; csimpl.
  - by rewrite Hget.
  - rewrite Map_get_set, decide_True by done. csimpl.
    by rewrite Map_set_set.
Qed.

Lemma moments_forEach ms grouped :
  forEach (Moments.moment_step dayKey) ms grouped
  = Normal (foldl (Moments.moment_upd dayKey) grouped ms).
Proof.
  revert grouped. induction ms as [|m ms IH]; intros grouped; [done |].
  cbn [forEach foldl]. rewrite moments_step_normal. apply IH.
Qed.

Lemma moments_groups_inv ms :
  NoDup (foldl (Moments.moment_upd dayKey) [] ms).*1 ∧
  ∀ key, Map_get (foldl (Moments.moment_upd dayKey) [] ms) key
         = match Moments.on_day dayKey key ms with
           | [] => None
           | l => Some l
           end.
Proof.
  induction ms as [|m ms [IHnd IHget]] using rev_ind.
  - split; [constructor | done].
  - rewrite foldl_app. cbn [foldl]. unfold Moments.moment_upd at 1 3. cbv zeta.
    split; [by apply Map_set_NoDup |]. intros key.
    rewrite Map_get_set. unfold Moments.on_day in *. rewrite filter_app.
    destruct (decide (dayKey (Moment.created_at m) = key)) as [Hk|Hk].
    + rewrite filter_cons_True by done. rewrite Hk, IHget.
      by destruct (filter _ ms).
    + rewrite filter_cons_False by done. rewrite app_nil_r. apply IHget.
Qed.

Lemma moments_entries ms key data :
  (key, data) ∈ foldl (Moments.moment_upd dayKey) [] ms →
  data = Moments.on_day dayKey key ms ∧ data ≠ [].
Proof.
  destruct (moments_groups_inv ms) as [Hnd Hget]. intros Hin.
  apply (Map_get_entry _ _ _ Hnd) in Hin. rewrite Hget in Hin.
  destruct (Moments.on_day dayKey key ms); [done |].
  by inversion Hin.
Qed.

Lemma moments_bind_skip ks m ms :
  dayKey (Moment.created_at m) ∉ ks →
  ks ≫= (λ k, Moments.on_day dayKey k (m :: ms))
  = ks ≫= (λ k, Moments.on_day dayKey k ms).
Proof.
  induction ks as [|k ks IH]; intros Hnotin; [done |].
  apply not_elem_of_cons in Hnotin as [Hne Hnotin].
  rewrite !bind_cons, IH by done. unfold Moments.on_day.
  by rewrite filter_cons_False.
Qed.

Lemma moments_bind_insert ks m ms :
  NoDup ks →
  dayKey (Moment.created_at m) ∈ ks →
  ks ≫= (λ k, Moments.on_day dayKey k (m :: ms))
  ≡ₚ m :: (ks ≫= (λ k, Moments.on_day dayKey k ms)).
Proof.
  intros Hnd Hin. induction Hnd as [|k ks Hk Hnd IH].
  - by apply elem_of_nil in Hin.
  - rewrite !bind_cons.
    destruct (decide (dayKey (Moment.created_at m) = k)) as [Heq|Hne].
    + rewrite moments_bind_skip by (by rewrite Heq).
      unfold Moments.on_day at 1. by rewrite filter_cons_True.
    + apply elem_of_cons in Hin as [Heq|Hin]; [congruence |].
      rewrite IH by done. unfold Moments.on_day at 1.
      rewrite filter_cons_False by done.
      by rewrite <- Permutation_middle.
Qed.

Lemma moments_days_Permutation ks ms :
  NoDup ks →
  (∀ m, m ∈ ms → dayKey (Moment.created_at m) ∈ ks) →
  ks ≫= (λ k, Moments.on_day dayKey k ms) ≡ₚ ms.
Proof.
  intros Hnd. induction ms as [|m ms IH]; intros Hcover.
  - clear. induction ks as [|k ks IH]; [done |]. by rewrite bind_cons, IH.
  - rewrite moments_bind_insert; [| done | apply Hcover; left].
    rewrite IH; [done |]. intros m' Hm'. apply Hcover. by right.
Qed.

End MomentsFacts.

(** X14.  Whatever order the collation gives the sections, [groupByDate] of
    the moments screen completes normally and its sections partition the
    moments by calendar day: every section is non-empty and holds exactly the
    moments of one day, in input order, under the title of that day, and the
    sections together hold every moment exactly once. *)
Theorem moments_groupByDate_partition dayKey label sortEntries moments :
  (∀ l, sortEntries l ≡ₚ l) →
  ∃ secs,
    Moments.groupByDate dayKey label sortEntries moments = Normal secs ∧
    Forall (λ s, Moments.data s ≠ [] ∧
                 ∃ key, Moments.title s = label key ∧
                        Moments.data s = Moments.on_day dayKey key moments)
           secs ∧
    secs ≫= Moments.data ≡ₚ moments.
Proof.
  intros Hsort. unfold Moments.groupByDate. rewrite moments_forEach. csimpl.
  eexists. split; [done |].
  set (grouped := foldl (Moments.moment_upd dayKey) [] moments).
  destruct (moments_groups_inv dayKey moments) as [Hnd Hget].
  fold grouped in Hnd, Hget. split.
  - apply Forall_fmap, Forall_forall. intros [key data] Hin.
    rewrite Hsort in Hin. apply moments_entries in Hin as [-> Hne].
    split; [done |]. by exists key.
  - rewrite list_fmap_bind, (Hsort grouped).
    assert (grouped
            = (λ k, (k, Moments.on_day dayKey k moments)) <$> grouped.*1)
      as Hentries.
    { apply Map_entries; [done |]. intros k Hk. rewrite Hget.
      destruct (Moments.on_day dayKey k moments) eqn:Hon; [| done].
      exfalso. specialize (Hget k). rewrite Hon in Hget.
      by apply Map_get_None in Hget. }
    rewrite Hentries, list_fmap_bind.
    apply (moments_days_Permutation dayKey); [done |].
    intros m Hm.
    destruct (decide (dayKey (Moment.created_at m) ∈ grouped.*1)) as [|Hn];
      [done |].
    exfalso. apply Map_get_None in Hn. rewrite Hget in Hn.
    assert (m ∈ Moments.on_day dayKey (dayKey (Moment.created_at m)) moments)
      as Hin by (by apply list_elem_of_filter).
    destruct (Moments.on_day dayKey _ moments); [| done].
    by apply elem_of_nil in Hin.
Qed.

Lemma moments_groupByDate_partition_witness :
  (∀ l : list (string * list Moment.t), reverse l ≡ₚ l) ∧
  ∃ secs,
    Moments.groupByDate Moments.isoDay (λ k, k) reverse Moments.sample
    = Normal secs ∧
    Forall (λ s, Moments.data s ≠ [] ∧
                 ∃ key, Moments.title s = key ∧
                        Moments.data s
                        = Moments.on_day Moments.isoDay key Moments.sample)
           secs ∧
    secs ≫= Moments.data ≡ₚ Moments.sample.
Proof.
  split; [apply reverse_Permutation |].
  exact (moments_groupByDate_partition Moments.isoDay (λ k, k) reverse
           Moments.sample (@reverse_Permutation _)).
Defined.

Example moments_groupByDate_runs :
  (λ r, match r with
        | Normal secs =>
            (λ s, (Moments.title s, Moment.id <$> Moments.data s)) <$> secs
        | TypeError => []
        end)
    (Moments.groupByDate Moments.isoDay (λ k, k) reverse Moments.sample)
  = [("2026-11-01", ["1"]); ("2026-11-02", ["3"; "2"])]%string.
Proof. vm_compute. reflexivity. Qed.
